(** * channelcheck: the syntax-tree traversal and its two rules

    A shallow embedding of [cmd/channelcheck/main.go], the program that
    [make build] compiles, together with the part of Go's [go/ast] and
    [go/token] packages that it calls. The copy of the analyzer in the
    root file [channelcheck.go] is embedded next to it, in [RootCopy], and
    related to it.

    Conventions.
    - A Go interface value of type [ast.Node] is an [option ast.Node]:
      [None] is the [nil] interface, the value [ast.Inspect] hands to the
      callback after the children of a node.
    - A computation that may stop with a run-time panic (a slice expression
      or an index out of range) returns an [option]; [None] is the panic.
    - Go's [int] and [token.Pos] are [Z]; the lengths that occur are far
      from the 64-bit limits. *)

From stdpp Require Import base option list strings pretty.
From Stdlib Require Import ZArith Lia.

Local Open Scope Z_scope.

(** ** Go slices *)

Definition len {A} (s : list A) : Z := Z.of_nat (length s).

(** [s[:hi]]: panics unless [0 <= hi <= len(s)]. *)
Definition slice_to {A} (s : list A) (hi : Z) : option (list A) :=
  if bool_decide (0 ≤ hi ≤ len s) then Some (take (Z.to_nat hi) s) else None.

(** [s[i]]: panics unless [0 <= i < len(s)]. *)
Definition index {A} (s : list A) (i : Z) : option A :=
  if bool_decide (0 ≤ i) then s !! Z.to_nat i else None.

(** ** Package [go/token] *)

Module token.

Definition Pos := Z.

Record Position := mkPosition {
  Filename : string;
  Offset : Z;
  Line : Z;
  Column : Z
}.

(** A file set is used only through its method [Position], which is
    what the model keeps of it. *)
Definition FileSet := Pos → Position.

End token.

(** ** Package [go/ast] *)

Module ast.

(** The node types the analyzer tells apart, with the children that
    [ast.Walk] visits, in its order; every other node type is an [Other]
    node with the list of its non-nil children.  Each node carries the
    values of its methods [Pos()] and [End()]. *)
#[local] Unset Elimination Schemes.
Inductive Node : Type :=
| Ident (pos end_ : token.Pos) (Name : string)
| ChanType (pos end_ : token.Pos) (Value : Node)
| CallExpr (pos end_ : token.Pos) (Fun : Node) (Args : list Node)
| SendStmt (pos end_ : token.Pos) (Chan Value : Node)
| SelectStmt (pos end_ : token.Pos) (Body : Node)
| Other (kind : string) (pos end_ : token.Pos) (children : list Node).
#[local] Set Elimination Schemes.

Definition Pos (n : Node) : token.Pos :=
  match n with
  | Ident p _ _ | ChanType p _ _ | CallExpr p _ _ _ | SendStmt p _ _ _
  | SelectStmt p _ _ | Other _ p _ _ => p
  end.

Definition End (n : Node) : token.Pos :=
  match n with
  | Ident _ e _ | ChanType _ e _ | CallExpr _ e _ _ | SendStmt _ e _ _
  | SelectStmt _ e _ | Other _ _ e _ => e
  end.

Definition children (n : Node) : list Node :=
  match n with
  | Ident _ _ _ => []
  | ChanType _ _ v => [v]
  | CallExpr _ _ f args => f :: args
  | SendStmt _ _ c v => [c; v]
  | SelectStmt _ _ b => [b]
  | Other _ _ _ cs => cs
  end.

Section Walk.
Context {S : Type}.
Variable f : S → option Node → option (S * bool).

(** [walkList]: visit the nodes of a list from left to right. *)
Definition walkList (walk : Node → S → option S) : list Node → S → option S :=
  fix go (l : list Node) (s : S) : option S :=
    match l with
    | [] => Some s
    | c :: l' => s' ← walk c s; go l' s'
    end.

(** [ast.Inspect(node, f)], which is [ast.Walk(inspector(f), node)]:
    call [f(node)]; if it returns false stop there, otherwise traverse
    the children and then call [f(nil)], whose result is ignored. *)
Fixpoint Inspect (node : Node) (s : S) {struct node} : option S :=
  '(s1, more) ← f s (Some node);
  if more : bool then
    s2 ← match node with
         | Ident _ _ _ => Some s1
         | ChanType _ _ v => Inspect v s1
         | CallExpr _ _ fn args => s' ← Inspect fn s1; walkList Inspect args s'
         | SendStmt _ _ c v => s' ← Inspect c s1; Inspect v s'
         | SelectStmt _ _ b => Inspect b s1
         | Other _ _ _ cs => walkList Inspect cs s1
         end;
    '(s3, _) ← f s2 None;
    Some s3
  else Some s1.
End Walk.

End ast.

(** ** Package [main] *)

(** Position represents a range in the source code. *)
Record Position := mkPos {
  Filename : string;
  StartLine : Z;
  StartColumn : Z;
  EndLine : Z;
  EndColumn : Z
}.

Record Issue := mkIssue {
  Pos : Position;
  Message : string;
  Severity : string
}.

Record parentStack := mkStack {
  nodes : list (option ast.Node)
}.

Record Analyzer := mkAnalyzer {
  issues : list Issue;
  fset : token.FileSet;
  stack : parentStack
}.

Definition set_stack (a : Analyzer) (p : parentStack) : Analyzer :=
  {| issues := issues a; fset := fset a; stack := p |}.

(** getPosition converts ast node position information into a Position. *)
Definition getPosition (a : Analyzer) (start end_ : token.Pos) : Position :=
  let startPos := fset a start in
  let endPos := fset a end_ in
  {| Filename := token.Filename startPos;
     StartLine := token.Line startPos;
     StartColumn := token.Column startPos;
     EndLine := token.Line endPos;
     EndColumn := token.Column endPos |}.

Definition push (p : parentStack) (n : option ast.Node) : parentStack :=
  match n with
  | None => p
  | Some _ => {| nodes := nodes p ++ [n] |}
  end.

Definition pop (p : parentStack) : option parentStack :=
  if bool_decide (0 < len (nodes p)) then
    s ← slice_to (nodes p) (len (nodes p) - 1);
    Some {| nodes := s |}
  else Some p.

Definition addIssue (a : Analyzer) (issue : Issue) : Analyzer :=
  {| issues := issues a ++ [issue]; fset := fset a; stack := stack a |}.

(** The loop of [checkChannelSend] over [a.stack.nodes]: the value of
    [inSelect] when the loop ends. *)
Fixpoint inSelect (parents : list (option ast.Node)) : bool :=
  match parents with
  | [] => false
  | None :: rest => inSelect rest
  | Some (ast.SelectStmt _ _ _) :: _ => true
  | Some _ :: rest => inSelect rest
  end.

Definition checkChannelSend (a : Analyzer) (node : ast.Node) : Analyzer :=
  if negb (inSelect (nodes (stack a))) then
    addIssue a
      {| Pos := getPosition a (ast.Pos node) (ast.End node);
         Message := "channel send without select statement may block indefinitely";
         Severity := "WARNING" |}
  else a.

(** [node] is the [*ast.CallExpr] of the type switch; the last branch is
    there for the other constructors only. *)
Definition checkChannelCreation (a : Analyzer) (node : ast.Node) : option Analyzer :=
  match node with
  | ast.CallExpr _ _ (ast.Ident _ _ Name) Args =>
      if negb (String.eqb Name "make") then Some a
      else if bool_decide (0 < len Args) then
        arg0 ← index Args 0;
        match arg0 with
        | ast.ChanType _ _ _ =>
            if bool_decide (len Args = 1) then
              Some (addIssue a
                {| Pos := getPosition a (ast.Pos node) (ast.End node);
                   Message := "unbuffered channel creation detected - consider specifying buffer size";
                   Severity := "INFO" |})
            else Some a
        | _ => Some a
        end
      else Some a
  | _ => Some a
  end.

(** The type switch of the callback. After a type switch a case variable
    is a non-nil pointer here, since a node of the tree is never a nil
    pointer; the guards [node != nil] are therefore always passed. *)
Definition dispatch (a : Analyzer) (node : ast.Node) : option Analyzer :=
  match node with
  | ast.SendStmt _ _ _ _ => Some (checkChannelSend a node)
  | ast.CallExpr _ _ _ _ => checkChannelCreation a node
  | _ => Some a
  end.

(** The function literal that [analyze] passes to [ast.Inspect]; it
    returns [true] on every path. *)
Definition visit (a : Analyzer) (n : option ast.Node) : option (Analyzer * bool) :=
  match n with
  | None =>
      if bool_decide (0 < len (nodes (stack a))) then
        p ← pop (stack a);
        Some (set_stack a p, true)
      else Some (a, true)
  | Some node =>
      let a := set_stack a (push (stack a) n) in
      a' ← dispatch a node;
      Some (a', true)
  end.

(** [file] is the [*ast.File] argument, [None] when it is nil. *)
Definition analyze (a : Analyzer) (file : option ast.Node) : option Analyzer :=
  match file with
  | None => Some a
  | Some f => ast.Inspect visit f (set_stack a {| nodes := [] |})
  end.

(** *** Files and directories

    The parser and the file system are collaborators of the analyzer:
    [ParseFile path] is the pair [(file, err)] that [parser.ParseFile]
    returns, [Stat path] the pair of [os.Stat] (with [IsDir()] for the file
    information), and [WalkCalls root] the calls [(path, info.IsDir(), err)]
    that [filepath.Walk] makes to its function, in order, as long as that
    function returns nil. *)

Definition error := string.

(** [strings.HasSuffix]. *)
Definition HasSuffix (s suffix : string) : bool :=
  let n := String.length s in
  let k := String.length suffix in
  (k <=? n)%nat && String.eqb (String.substring (n - k) k s) suffix.

Section Files.
Variable ParseFile : string → option ast.Node * option error.
Variable Stat : string → bool * option error.
Variable WalkCalls : string → list (string * bool * option error).

Definition analyzeFile (a : Analyzer) (path : string) : option (Analyzer * option error) :=
  let '(file, err) := ParseFile path in
  match err with
  | Some e => Some (a, Some ("error parsing file: " +:+ e))
  | None =>
      match file with
      | None => Some (a, Some "parsed file is nil")
      | Some _ => a' ← analyze a file; Some (a', None)
      end
  end.

(** [filepath.Walk] with the function literal of [analyzePath]: the walk
    stops at the first call that returns an error. *)
Fixpoint walkFiles (a : Analyzer) (calls : list (string * bool * option error))
    : option (Analyzer * option error) :=
  match calls with
  | [] => Some (a, None)
  | (path, isDir, err) :: rest =>
      match err with
      | Some e => Some (a, Some e)
      | None =>
          if negb isDir && HasSuffix path ".go" then
            '(a', r) ← analyzeFile a path;
            match r with
            | Some e =>
                Some (a', Some ("error analyzing file " +:+ path +:+ ": " +:+ e))
            | None => walkFiles a' rest
            end
          else walkFiles a rest
      end
  end.

Definition analyzePath (a : Analyzer) (path : string) : option (Analyzer * option error) :=
  let '(isDir, err) := Stat path in
  match err with
  | Some e => Some (a, Some ("error accessing path: " +:+ e))
  | None => if isDir then walkFiles a (WalkCalls path) else analyzeFile a path
  end.

(** [run], from the creation of the analyzer to the issues it hands to
    [printOutput]; [fs] resolves the positions of the files parsed. *)
Definition run (fs : token.FileSet) (path : string) : option (list Issue + error) :=
  let analyzer := {| issues := []; fset := fs; stack := {| nodes := [] |} |} in
  '(analyzer, err) ← analyzePath analyzer path;
  match err with
  | Some e => Some (inr ("error analyzing path: " +:+ e))
  | None => Some (inl (issues analyzer))
  end.

(** The files that a walk analyzes, in order: the calls for a regular file
    whose name ends in [.go], with the tree the parser gives for it. *)
Definition scanned (calls : list (string * bool * option error)) : list ast.Node :=
  omap (λ '(path, isDir, _),
          if negb isDir && HasSuffix path ".go" then (ParseFile path).1 else None)
       calls.

(** A call of the walk that reports no error and, for a file that is
    analyzed, finds a file that parses. *)
Definition readable (c : string * bool * option error) : Prop :=
  c.2 = None ∧
  (negb c.1.2 && HasSuffix c.1.1 ".go" = true →
   ∃ f, ParseFile c.1.1 = (Some f, None)).

End Files.

(** ** The root file [channelcheck.go]

    The repository holds a second copy of the analyzer in its root
    directory. Its rules and its traversal are those of [main.go] without
    the nil guards; an issue records the position where the construct
    starts, a [token.Position], and not a range. *)

Module RootCopy.

Record Issue := mkIssue {
  Pos : token.Position;
  Message : string;
  Severity : string
}.

Record Analyzer := mkAnalyzer {
  issues : list Issue;
  fset : token.FileSet;
  stack : parentStack
}.

Definition set_stack (a : Analyzer) (p : parentStack) : Analyzer :=
  {| issues := issues a; fset := fset a; stack := p |}.

Definition push (p : parentStack) (n : option ast.Node) : parentStack :=
  {| nodes := nodes p ++ [n] |}.

Definition pop (p : parentStack) : option parentStack :=
  if bool_decide (0 < len (nodes p)) then
    s ← slice_to (nodes p) (len (nodes p) - 1);
    Some {| nodes := s |}
  else Some p.

Definition addIssue (a : Analyzer) (issue : Issue) : Analyzer :=
  {| issues := issues a ++ [issue]; fset := fset a; stack := stack a |}.

(** The loop of [checkChannelSend]; the type assertion fails on nil. *)
Fixpoint inSelect (parents : list (option ast.Node)) : bool :=
  match parents with
  | [] => false
  | Some (ast.SelectStmt _ _ _) :: _ => true
  | _ :: rest => inSelect rest
  end.

Definition checkChannelSend (a : Analyzer) (node : ast.Node) : Analyzer :=
  if negb (inSelect (nodes (stack a))) then
    addIssue a
      {| Pos := fset a (ast.Pos node);
         Message := "channel send without select statement may block indefinitely";
         Severity := "WARNING" |}
  else a.

Definition checkChannelCreation (a : Analyzer) (node : ast.Node) : option Analyzer :=
  match node with
  | ast.CallExpr _ _ (ast.Ident _ _ Name) Args =>
      if String.eqb Name "make" then
        if bool_decide (0 < len Args) then
          arg0 ← index Args 0;
          match arg0 with
          | ast.ChanType _ _ _ =>
              if bool_decide (len Args = 1) then
                Some (addIssue a
                  {| Pos := fset a (ast.Pos node);
                     Message := "unbuffered channel creation detected - consider specifying buffer size";
                     Severity := "INFO" |})
              else Some a
          | _ => Some a
          end
        else Some a
      else Some a
  | _ => Some a
  end.

Definition visit (a : Analyzer) (n : option ast.Node) : option (Analyzer * bool) :=
  match n with
  | None =>
      if bool_decide (0 < len (nodes (stack a))) then
        p ← pop (stack a);
        Some (set_stack a p, true)
      else Some (a, true)
  | Some node =>
      let a := set_stack a (push (stack a) n) in
      match node with
      | ast.SendStmt _ _ _ _ => Some (checkChannelSend a node, true)
      | ast.CallExpr _ _ _ _ => a' ← checkChannelCreation a node; Some (a', true)
      | _ => Some (a, true)
      end
  end.

(** [file] is the file that [analyzeFile] has parsed without error. *)
Definition analyze (a : Analyzer) (file : ast.Node) : option Analyzer :=
  ast.Inspect visit file (set_stack a {| nodes := [] |}).

End RootCopy.

(** An issue of the root file and an issue of [main.go] for the same
    finding: same severity and message, and the position of the one is the
    start of the range of the other. *)
Definition same_finding (l : RootCopy.Issue) (m : Issue) : Prop :=
  RootCopy.Severity l = Severity m ∧
  RootCopy.Message l = Message m ∧
  token.Filename (RootCopy.Pos l) = Filename (Pos m) ∧
  token.Line (RootCopy.Pos l) = StartLine (Pos m) ∧
  token.Column (RootCopy.Pos l) = StartColumn (Pos m).

(** Analyzers of the two programs in corresponding states. *)
Definition corresponds (l : RootCopy.Analyzer) (m : Analyzer) : Prop :=
  nodes (RootCopy.stack l) = nodes (stack m) ∧
  RootCopy.fset l = fset m ∧
  Forall2 same_finding (RootCopy.issues l) (issues m).

(** ** The traversal as a sequence of signals

    What follows is read off the shape of the tree alone. *)

(** One call of the callback: the node is entered, or it is left (its
    children are done and the callback receives nil). [anc] is the path
    from the root of the tree to the direct parent of the node, root first. *)
Inductive Signal : Type :=
| Enter (anc : list ast.Node) (n : ast.Node)
| Leave (anc : list ast.Node) (n : ast.Node).

(** Depth-first, children from left to right. *)
Fixpoint traversal (anc : list ast.Node) (t : ast.Node) {struct t} : list Signal :=
  let below := anc ++ [t] in
  let list_traversal :=
    fix go (l : list ast.Node) : list Signal :=
      match l with
      | [] => []
      | c :: l' => traversal below c ++ go l'
      end in
  Enter anc t ::
  match t with
  | ast.Ident _ _ _ => []
  | ast.ChanType _ _ v => traversal below v
  | ast.CallExpr _ _ fn args => traversal below fn ++ list_traversal args
  | ast.SendStmt _ _ c v => traversal below c ++ traversal below v
  | ast.SelectStmt _ _ b => traversal below b
  | ast.Other _ _ _ cs => list_traversal cs
  end ++ [Leave anc t].

(** The argument the callback receives at a signal. *)
Definition argument (sg : Signal) : option ast.Node :=
  match sg with
  | Enter _ n => Some n
  | Leave _ _ => None
  end.

(** The path from the root to the node of a signal, that node included. *)
Definition path_to (sg : Signal) : list ast.Node :=
  match sg with
  | Enter anc n | Leave anc n => anc ++ [n]
  end.

Definition ancestors (sg : Signal) : list ast.Node :=
  match sg with
  | Enter anc _ | Leave anc _ => anc
  end.

(** ** Observing a run *)

(** [traced f] behaves as [f] and records every call: the state before,
    the argument, the state after. *)
Definition traced {S : Type} (f : S → option ast.Node → option (S * bool))
    (sl : S * list (S * option ast.Node * S)) (n : option ast.Node)
    : option ((S * list (S * option ast.Node * S)) * bool) :=
  '(s', more) ← f sl.1 n;
  Some ((s', sl.2 ++ [(sl.1, n, s')]), more).

(** The issues the callback appends when it enters [n] with the nodes
    [anc] on the stack. *)
Definition emitted (fs : token.FileSet) (anc : list ast.Node) (n : ast.Node) : list Issue :=
  match visit {| issues := []; fset := fs; stack := {| nodes := Some <$> anc |} |} (Some n) with
  | Some (a, _) => issues a
  | None => []
  end.

Definition emitted_at (fs : token.FileSet) (sg : Signal) : list Issue :=
  match sg with
  | Enter anc n => emitted fs anc n
  | Leave _ _ => []
  end.

(** The issues of a whole tree, signal by signal. *)
Definition report (fs : token.FileSet) (sgs : list Signal) : list Issue :=
  sgs ≫= emitted_at fs.

(** ** Sample trees

    Positions are byte offsets plus one; the sample file set lays a file
    out in lines of 100 bytes, and serves a second file from offset 1000. *)

Module Sample.

Definition fileSet : token.FileSet :=
  λ p, if bool_decide (p < 1000)
       then token.mkPosition "a.go" (p - 1) ((p - 1) / 100 + 1) ((p - 1) mod 100 + 1)
       else token.mkPosition "b.go" (p - 1000) ((p - 1000) / 100 + 1) ((p - 1000) mod 100 + 1).

Definition fresh : Analyzer :=
  {| issues := []; fset := fileSet; stack := {| nodes := [] |} |}.

(** [ch <- 1] at offset [p]. *)
Definition send (p : Z) : ast.Node :=
  ast.SendStmt p (p + 7) (ast.Ident p (p + 2) "ch") (ast.Other "BasicLit" (p + 6) (p + 7) []).

(** [make(chan int)] and [make(chan int, 1)] at offset [p]. *)
Definition chanInt (p : Z) : ast.Node :=
  ast.ChanType p (p + 8) (ast.Ident (p + 5) (p + 8) "int").

Definition makeChan (p : Z) : ast.Node :=
  ast.CallExpr p (p + 14) (ast.Ident p (p + 4) "make") [chanInt (p + 5)].

Definition makeChanBuffered (p : Z) : ast.Node :=
  ast.CallExpr p (p + 17) (ast.Ident p (p + 4) "make")
    [chanInt (p + 5); ast.Other "BasicLit" (p + 15) (p + 16) []].

(** [ch := e] at offset [p], [e] at [p + 6]. *)
Definition assign (p : Z) (e : ast.Node) : ast.Node :=
  ast.Other "AssignStmt" p (ast.End e) [ast.Ident p (p + 2) "ch"; e].

Definition block (p e : Z) (stmts : list ast.Node) : ast.Node :=
  ast.Other "BlockStmt" p e stmts.

(** [select { case <comm>: <body> default: }]. *)
Definition select (p e : Z) (comm : ast.Node) (body : list ast.Node) : ast.Node :=
  ast.SelectStmt p e
    (block (p + 7) e
       [ast.Other "CommClause" (p + 10) (e - 12) (comm :: body);
        ast.Other "CommClause" (e - 10) (e - 2) []]).

(** [package test; func f() { <stmts> }], the file starting at [base]. *)
Definition body (base : Z) (stmts : list ast.Node) : ast.Node :=
  block (base + 109) (base + 899) stmts.

Definition funcDecl (base : Z) (stmts : list ast.Node) : ast.Node :=
  ast.Other "FuncDecl" (base + 100) (base + 899)
    [ast.Ident (base + 105) (base + 106) "f";
     ast.Other "FuncType" (base + 100) (base + 108)
       [ast.Other "FieldList" (base + 106) (base + 108) []];
     body base stmts].

Definition file (base : Z) (stmts : list ast.Node) : ast.Node :=
  ast.Other "File" base (base + 900)
    [ast.Ident (base + 8) (base + 12) "test"; funcDecl base stmts].

(** The path from the root to the body of the function. *)
Definition above (base : Z) (stmts : list ast.Node) : list ast.Node :=
  [file base stmts; funcDecl base stmts; body base stmts].

(** Scenario A: [ch := make(chan int); ch <- 1]. *)
Definition scenarioA : ast.Node :=
  file 1 [assign 201 (makeChan 207); send 301].

(** Scenario B: [ch := make(chan int, 1); ch <- 1]. *)
Definition scenarioB : ast.Node :=
  file 1 [assign 201 (makeChanBuffered 207); send 301].

(** Scenario C: [ch := make(chan int, 1); select { case ch <- 1: default: }]. *)
Definition scenarioC : ast.Node :=
  file 1 [assign 201 (makeChanBuffered 207); select 301 500 (send 316) []].

(** Scenario D: a send two blocks deep in the body of a select case. *)
Definition scenarioD : ast.Node :=
  file 1 [select 301 600 (ast.Other "ExprStmt" 316 320 [])
            [block 401 450 [block 411 440 [send 421]]]].

(** Scenario E: one send in a select and one outside. *)
Definition scenarioE : ast.Node :=
  file 1 [select 301 500 (send 316) []; send 601].

(** A second file, served from offset 1000, with one send. *)
Definition fileB : ast.Node := file 1000 [send 1301].

(** A tree that is a send statement and nothing else. *)
Definition loneSend : ast.Node := send 1.

(** A directory with the two files and a text file. *)
Definition ParseFile (path : string) : option ast.Node * option error :=
  if String.eqb path "dir/a.go" then (Some scenarioA, None)
  else if String.eqb path "dir/b.go" then (Some fileB, None)
  else (None, Some "no such file").

Definition Stat (path : string) : bool * option error :=
  (String.eqb path "dir", None).

Definition WalkCalls (root : string) : list (string * bool * option error) :=
  [("dir", true, None); ("dir/a.go", false, None); ("dir/b.go", false, None);
   ("dir/notes.txt", false, None)].

(** An analyzer of the root file with nothing collected. *)
Definition rootFresh : RootCopy.Analyzer :=
  {| RootCopy.issues := []; RootCopy.fset := fileSet;
     RootCopy.stack := {| nodes := [] |} |}.

(** [ch <- <value>] from offset [p] to offset [e]. *)
Definition sendUntil (p e : Z) : ast.Node :=
  ast.SendStmt p e (ast.Ident p (p + 2) "ch") (ast.Other "CallExpr" (p + 6) e []).

(** [make(chan int)] from offset [p] to offset [e], with blanks or line
    breaks before the closing parenthesis. *)
Definition makeChanUntil (p e : Z) : ast.Node :=
  ast.CallExpr p e (ast.Ident p (p + 4) "make") [chanInt (p + 5)].

End Sample.


(** [occurs_at root anc n]: the node [n] occurs in the tree [root] below
    the ancestors [anc], listed from the root down to its direct parent. *)
Inductive occurs_at (root : ast.Node) : list ast.Node → ast.Node → Prop :=
| occurs_root : occurs_at root [] root
| occurs_child anc p c :
    occurs_at root anc p → c ∈ ast.children p → occurs_at root (anc ++ [p]) c.

(** The stack of the analyzer when a signal reaches the callback, and when
    the callback returns. *)
Definition stack_before (sg : Signal) : list ast.Node :=
  match sg with
  | Enter anc _ => anc
  | Leave anc n => anc ++ [n]
  end.

Definition stack_after (sg : Signal) : list ast.Node :=
  match sg with
  | Enter anc n => anc ++ [n]
  | Leave anc _ => anc
  end.

Definition expected (sg : Signal)
    : list (option ast.Node) * option ast.Node * list (option ast.Node) :=
  (Some <$> stack_before sg, argument sg, Some <$> stack_after sg).

(** What a recorded call shows of the stack. *)
Definition observed (c : Analyzer * option ast.Node * Analyzer)
    : list (option ast.Node) * option ast.Node * list (option ast.Node) :=
  (nodes (stack c.1.1), c.1.2, nodes (stack c.2)).

(** The state in which the traversal of a subtree ends, when it began in [a]
    below the ancestors [anc] and made the calls [sgs]. *)
Definition state_after (a : Analyzer) (anc : list ast.Node) (sgs : list Signal) : Analyzer :=
  {| issues := issues a ++ report (fset a) sgs; fset := fset a;
     stack := {| nodes := Some <$> anc |} |}.

(** A recorded call is genuine for [f] when [f], applied to the recorded
    state and argument, returns the recorded state. *)
Definition genuine {S : Type} (f : S → option ast.Node → option (S * bool))
    (c : S * option ast.Node * S) : Prop :=
  ∃ more, f c.1.1 c.1.2 = Some (c.2, more).

(** The analyzer that a rule receives when the callback, called in the
    state [s], enters [n]: the callback pushes [n] before its type switch. *)
Definition rule_input (s : Analyzer) (n : ast.Node) : Analyzer :=
  set_stack s (push (stack s) (Some n)).

(** [analyze] with every call of its callback recorded. *)
Definition analyze_traced (a : Analyzer) (file : option ast.Node)
    : option (Analyzer * list (Analyzer * option ast.Node * Analyzer)) :=
  match file with
  | None => Some (a, [])
  | Some f => ast.Inspect (traced visit) f (set_stack a {| nodes := [] |}, [])
  end.

(** The issues that a run from [before] to [after] has produced. *)
Definition produced (before after : Analyzer) : list Issue :=
  drop (length (issues before)) (issues after).

(** The source range between two resolved positions, and the two issues
    of the rules for a construct with that range. *)
Definition range (s e : token.Position) : Position :=
  {| Filename := token.Filename s;
     StartLine := token.Line s; StartColumn := token.Column s;
     EndLine := token.Line e; EndColumn := token.Column e |}.

Definition sendWarning (s e : token.Position) : Issue :=
  {| Pos := range s e;
     Message := "channel send without select statement may block indefinitely";
     Severity := "WARNING" |}.

Definition creationInfo (s e : token.Position) : Issue :=
  {| Pos := range s e;
     Message := "unbuffered channel creation detected - consider specifying buffer size";
     Severity := "INFO" |}.

(** The two forms of an issue. *)
Definition two_forms (i : Issue) : Prop :=
  (Severity i = "WARNING" ∧
   Message i = "channel send without select statement may block indefinitely") ∨
  (Severity i = "INFO" ∧
   Message i = "unbuffered channel creation detected - consider specifying buffer size").

(** Arbitrary sequences of stack operations, and of callback arguments. *)
Inductive StackOp : Type :=
| Push (n : option ast.Node)
| Pop.

Definition apply_op (p : parentStack) (op : StackOp) : option parentStack :=
  match op with
  | Push n => Some (push p n)
  | Pop => pop p
  end.

Fixpoint apply_ops (p : parentStack) (ops : list StackOp) : option parentStack :=
  match ops with
  | [] => Some p
  | op :: rest => p' ← apply_op p op; apply_ops p' rest
  end.

Fixpoint deliver (a : Analyzer) (args : list (option ast.Node)) : option Analyzer :=
  match args with
  | [] => Some a
  | n :: rest => '(a', _) ← visit a n; deliver a' rest
  end.

(** The nodes entered and the exits among the arguments of the callback. *)
Definition is_exit (n : option ast.Node) : bool :=
  match n with
  | None => true
  | Some _ => false
  end.

Definition entries (args : list (option ast.Node)) : nat :=
  length (List.filter (λ n, negb (is_exit n)) args).

Definition exits (args : list (option ast.Node)) : nat :=
  length (List.filter is_exit args).

(** ** Output

    The rest of [main.go]: the text of a position, the two printers and
    the command around them. Standard output is a writer: [Write w text] is
    one call of [os.Stdout.Write] in the state [w], with the state after it
    and the error it returns; [fmt.Println] and [fmt.Printf] make one such
    call each. [MarshalIndent output] is the pair that [json.MarshalIndent]
    returns for the prefix and indent of [printJSON]. [%d] is [pretty]. *)

Definition newline : string := String (Ascii.ascii_of_nat 10) "".

(** [s[i] = x]: panics unless [0 <= i < len(s)]. *)
Definition assign {A} (s : list A) (i : Z) (x : A) : option (list A) :=
  if bool_decide (0 ≤ i < len s) then Some (<[Z.to_nat i := x]> s) else None.

(** The method [String] of [Position]. *)
Definition Position_String (p : Position) : string :=
  if bool_decide (StartLine p = EndLine p) then
    Filename p +:+ ":" +:+ pretty (StartLine p) +:+ ":" +:+ pretty (StartColumn p)
    +:+ "-" +:+ pretty (EndColumn p)
  else
    Filename p +:+ ":" +:+ pretty (StartLine p) +:+ ":" +:+ pretty (StartColumn p)
    +:+ "-" +:+ pretty (EndLine p) +:+ ":" +:+ pretty (EndColumn p).

Module JSON.

Record JSONIssue := mkJSONIssue {
  Severity : string;
  Message : string;
  Position : Position
}.

Record JSONOutput := mkJSONOutput {
  Issues : list JSONIssue;
  Total : Z
}.

End JSON.

(** The composite literal in the loop of [printJSON]. *)
Definition toJSONIssue (issue : Issue) : JSON.JSONIssue :=
  {| JSON.Severity := Severity issue;
     JSON.Message := Message issue;
     JSON.Position := Pos issue |}.

(** The zero value of [JSONIssue], with which [make] fills the slice. *)
Definition zeroJSONIssue : JSON.JSONIssue :=
  {| JSON.Severity := ""; JSON.Message := "";
     JSON.Position := {| Filename := ""; StartLine := 0; StartColumn := 0;
                         EndLine := 0; EndColumn := 0 |} |}.

(** The loop of [printJSON], from the index [i] on. *)
Fixpoint fillIssues (i : Z) (issues : list Issue) (slots : list JSON.JSONIssue)
    : option (list JSON.JSONIssue) :=
  match issues with
  | [] => Some slots
  | issue :: rest =>
      slots' ← assign slots i (toJSONIssue issue);
      fillIssues (i + 1) rest slots'
  end.

(** The text of the [Printf] in the loop of [printText]. *)
Definition issueLine (issue : Issue) : string :=
  "[" +:+ Severity issue +:+ "] " +:+ Position_String (Pos issue) +:+ ": "
  +:+ Message issue +:+ newline.

Section Output.
Context {W : Type}.
Variable Write : W → string → W * option error.
Variable MarshalIndent : JSON.JSONOutput → string * option error.

Definition printJSON (issues : list Issue) (w : W) : option (W * option error) :=
  slots ← fillIssues 0 issues (replicate (length issues) zeroJSONIssue);
  let output := {| JSON.Issues := slots; JSON.Total := len issues |} in
  let '(jsonBytes, err) := MarshalIndent output in
  match err with
  | Some e => Some (w, Some ("error marshaling JSON: " +:+ e))
  | None => Some (Write w (jsonBytes +:+ newline))
  end.

(** The loop of [printText]. *)
Fixpoint printLines (issues : list Issue) (w : W) : W * option error :=
  match issues with
  | [] => (w, None)
  | issue :: rest =>
      let '(w', err) := Write w (issueLine issue) in
      match err with
      | Some e => (w', Some e)
      | None => printLines rest w'
      end
  end.

Definition printText (issues : list Issue) (w : W) : W * option error :=
  if bool_decide (len issues = 0) then Write w ("No issues found!" +:+ newline)
  else
    let '(w', err) :=
      Write w ("Found " +:+ pretty (len issues) +:+ " potential issues:"
               +:+ newline +:+ newline) in
    match err with
    | Some e => (w', Some e)
    | None => printLines issues w'
    end.

Definition printOutput (format : string) (issues : list Issue) (w : W)
    : option (W * option error) :=
  if String.eqb format "json" then printJSON issues w
  else if String.eqb format "txt" then Some (printText issues w)
  else Some (w, Some ("unknown output format: " +:+ format)).

(** Writing texts one after the other, up to the first error. *)
Fixpoint writeAll (texts : list string) (w : W) : W * option error :=
  match texts with
  | [] => (w, None)
  | text :: rest =>
      let '(w', err) := Write w text in
      match err with
      | Some e => (w', Some e)
      | None => writeAll rest w'
      end
  end.

Variable ParseFile : string → option ast.Node * option error.
Variable Stat : string → bool * option error.
Variable WalkCalls : string → list (string * bool * option error).

(** [run] with its two flags and its printing; [fs] as in [run]. *)
Definition runWith (fs : token.FileSet) (path output : string) (w : W)
    : option (W * option error) :=
  if negb (String.eqb output "txt") && negb (String.eqb output "json") then
    Some (w, Some ("invalid output format: " +:+ output
                   +:+ ". Valid options are: txt, json"))
  else
    let analyzer := {| issues := []; fset := fs; stack := {| nodes := [] |} |} in
    '(analyzer, err) ← analyzePath ParseFile Stat WalkCalls analyzer path;
    match err with
    | Some e => Some (w, Some ("error analyzing path: " +:+ e))
    | None =>
        '(w', err) ← printOutput output (issues analyzer) w;
        match err with
        | Some e => Some (w', Some ("error printing output: " +:+ e))
        | None => Some (w', None)
        end
    end.

End Output.

(** The texts that [printText] is to write for a list of issues. *)
Definition textOutput (issues : list Issue) : list string :=
  match issues with
  | [] => ["No issues found!" +:+ newline]
  | _ =>
      ("Found " +:+ pretty (len issues) +:+ " potential issues:" +:+ newline +:+ newline)
      :: (issueLine <$> issues)
  end.

(** ** Files and directories in the root file

    [analyzeFile], [analyzePath] and [main] of [channelcheck.go], up to the
    call of a printer: [main] either stops in [log.Fatalf] or hands the
    issues to the printer of the format, after logging the error of the
    analysis if there is one. [ast.Inspect] dereferences the file, so that
    [analyze] on a nil file panics. *)

Module RootCopyFiles.

Section Files.
Variable ParseFile : string → option ast.Node * option error.
Variable Stat : string → bool * option error.
Variable WalkCalls : string → list (string * bool * option error).

Definition analyzeFile (a : RootCopy.Analyzer) (path : string)
    : option (RootCopy.Analyzer * option error) :=
  let '(file, err) := ParseFile path in
  match err with
  | Some e => Some (a, Some ("error parsing file " +:+ path +:+ ": " +:+ e))
  | None =>
      match file with
      | None => None
      | Some f => a' ← RootCopy.analyze a f; Some (a', None)
      end
  end.

Fixpoint walkFiles (a : RootCopy.Analyzer) (calls : list (string * bool * option error))
    : option (RootCopy.Analyzer * option error) :=
  match calls with
  | [] => Some (a, None)
  | (path, isDir, err) :: rest =>
      match err with
      | Some e => Some (a, Some e)
      | None =>
          if negb isDir && HasSuffix path ".go" then
            '(a', r) ← analyzeFile a path;
            match r with
            | Some e => Some (a', Some e)
            | None => walkFiles a' rest
            end
          else walkFiles a rest
      end
  end.

Definition analyzePath (a : RootCopy.Analyzer) (path : string)
    : option (RootCopy.Analyzer * option error) :=
  let '(isDir, err) := Stat path in
  match err with
  | Some e => Some (a, Some ("error accessing path: " +:+ e))
  | None => if isDir then walkFiles a (WalkCalls path) else analyzeFile a path
  end.

(** How [main] ends. *)
Inductive Outcome : Type :=
| Fatal (message : string)
| Printed (format : string) (issues : list RootCopy.Issue) (logged : option string).

Definition main (fs : token.FileSet) (path output : string) : option Outcome :=
  if negb (String.eqb output "txt") && negb (String.eqb output "json") then
    Some (Fatal ("Invalid output format: " +:+ output
                 +:+ ". Valid options are: txt, json"))
  else
    let analyzer :=
      {| RootCopy.issues := []; RootCopy.fset := fs;
         RootCopy.stack := {| nodes := [] |} |} in
    '(analyzer, err) ← analyzePath analyzer path;
    Some (Printed output (RootCopy.issues analyzer)
            ((λ e, "Error analyzing path: " +:+ e +:+ newline) <$> err)).

End Files.

End RootCopyFiles.

(** The issues the callback of the root file appends when it enters [n]
    with the nodes [anc] on the stack, and the issues of a sequence of
    signals. *)
Definition root_emitted (fs : token.FileSet) (anc : list ast.Node) (n : ast.Node)
    : list RootCopy.Issue :=
  match RootCopy.visit
          {| RootCopy.issues := []; RootCopy.fset := fs;
             RootCopy.stack := {| nodes := Some <$> anc |} |} (Some n) with
  | Some (a, _) => RootCopy.issues a
  | None => []
  end.

Definition root_emitted_at (fs : token.FileSet) (sg : Signal) : list RootCopy.Issue :=
  match sg with
  | Enter anc n => root_emitted fs anc n
  | Leave _ _ => []
  end.

Definition root_report (fs : token.FileSet) (sgs : list Signal) : list RootCopy.Issue :=
  sgs ≫= root_emitted_at fs.

(** * Properties *)

(** Closes [x ∉ l] for a list given element by element. *)
Ltac absent :=
  repeat (apply not_elem_of_cons; split; [discriminate|]); apply not_elem_of_nil.

(** ** Trees *)

(** Induction on a tree, with the property known of every child. *)
Lemma Node_children_ind (P : ast.Node → Prop) :
  (∀ n, Forall P (ast.children n) → P n) → ∀ n, P n.
Proof.
  intros step.
  fix IH 1. intros n. apply step.
  destruct n as [p e nm|p e v|p e fn args|p e c v|p e b|k p e cs]; simpl.
  - constructor.
  - repeat constructor; apply IH.
  - constructor; [apply IH|].
    induction args as [|x args IHargs]; constructor; [apply IH|exact IHargs].
  - repeat constructor; apply IH.
  - repeat constructor; apply IH.
  - induction cs as [|x cs IHcs]; constructor; [apply IH|exact IHcs].
Qed.

Lemma bind_ret_r {A} (m : option A) : (x ← m; Some x) = m.
Proof. by destruct m. Qed.

Section InspectFacts.
Context {S : Type}.
Variable f : S → option ast.Node → option (S * bool).

Lemma walkList_cons (w : ast.Node → S → option S) c l s :
  ast.walkList w (c :: l) s = s' ← w c s; ast.walkList w l s'.
Proof. reflexivity. Qed.

(** [Inspect] in terms of the list of children. *)
Lemma Inspect_unfold t s :
  ast.Inspect f t s =
    '(s1, more) ← f s (Some t);
    if more : bool then
      s2 ← ast.walkList (ast.Inspect f) (ast.children t) s1;
      '(s3, _) ← f s2 None;
      Some s3
    else Some s1.
Proof.
  destruct t; simpl; destruct (f s _) as [[s1 []]|]; simpl; try reflexivity.
  - by rewrite bind_ret_r.
  - destruct (ast.Inspect f t1 s1); simpl; [|done]. by rewrite bind_ret_r.
  - by rewrite bind_ret_r.
Qed.

End InspectFacts.

Lemma traversal_list_bind anc l :
  (fix go (l : list ast.Node) : list Signal :=
     match l with
     | [] => []
     | c :: l' => traversal anc c ++ go l'
     end) l = l ≫= traversal anc.
Proof. induction l as [|c l IH]; [done|]. by rewrite IH. Qed.

(** [traversal] in terms of the list of children. *)
Lemma traversal_unfold anc t :
  traversal anc t =
    Enter anc t :: (ast.children t ≫= traversal (anc ++ [t])) ++ [Leave anc t].
Proof.
  destruct t; simpl; rewrite ?traversal_list_bind, ?app_nil_r; reflexivity.
Qed.

(** ** The stack *)

Lemma len_app_one {A} (l : list A) (x : A) : len (l ++ [x]) = len l + 1.
Proof. unfold len. rewrite length_app. simpl. lia. Qed.

Lemma len_nonneg {A} (l : list A) : 0 ≤ len l.
Proof. unfold len. lia. Qed.

(** Dropping the last element of a slice that has one never panics. *)
Lemma slice_to_init {A} (l : list A) (x : A) :
  slice_to (l ++ [x]) (len (l ++ [x]) - 1) = Some l.
Proof.
  unfold slice_to. rewrite len_app_one.
  rewrite bool_decide_eq_true_2 by (pose proof (len_nonneg l); lia).
  f_equal. replace (Z.to_nat (len l + 1 - 1)) with (length l) by (unfold len; lia).
  by rewrite take_app_length.
Qed.

Lemma pop_empty : pop {| nodes := [] |} = Some {| nodes := [] |}.
Proof. reflexivity. Qed.

Lemma pop_snoc l x : pop {| nodes := l ++ [x] |} = Some {| nodes := l |}.
Proof.
  unfold pop. simpl nodes.
  rewrite bool_decide_eq_true_2 by (rewrite len_app_one; pose proof (len_nonneg l); lia).
  by rewrite slice_to_init.
Qed.

(** [pop] is total; on a stack with elements it removes exactly the last. *)
Lemma pop_total p :
  pop p = Some {| nodes := take (length (nodes p) - 1)%nat (nodes p) |}.
Proof.
  destruct p as [l]. destruct l as [|y l'] using rev_ind; [done|].
  rewrite pop_snoc. simpl. f_equal. f_equal.
  rewrite length_app. simpl.
  replace (length l' + 1 - 1)%nat with (length l') by lia.
  by rewrite take_app_length.
Qed.

(** ** The callback *)

Lemma visit_nil_empty a :
  nodes (stack a) = [] → visit a None = Some (a, true).
Proof. intros H. unfold visit. by rewrite H. Qed.

Lemma visit_nil_snoc a l x :
  nodes (stack a) = l ++ [x] →
  visit a None = Some (set_stack a {| nodes := l |}, true).
Proof.
  intros H. unfold visit. rewrite H.
  rewrite bool_decide_eq_true_2 by (rewrite len_app_one; pose proof (len_nonneg l); lia).
  destruct a as [iss fs [st]]; simpl in *; subst st.
  by rewrite pop_snoc.
Qed.

(** The rules read the stack and append to the issues; nothing else. *)
Lemma checkChannelSend_frame a n :
  checkChannelSend a n =
    {| issues := issues a ++
                 issues (checkChannelSend {| issues := []; fset := fset a; stack := stack a |} n);
       fset := fset a; stack := stack a |}.
Proof.
  unfold checkChannelSend, addIssue, getPosition; simpl.
  destruct (inSelect _); simpl; [by rewrite app_nil_r; destruct a|done].
Qed.

Lemma checkChannelCreation_frame a n :
  ∃ new,
    checkChannelCreation {| issues := []; fset := fset a; stack := stack a |} n =
      Some {| issues := new; fset := fset a; stack := stack a |} ∧
    checkChannelCreation a n =
      Some {| issues := issues a ++ new; fset := fset a; stack := stack a |}.
Proof.
  assert (Hid : a = {| issues := issues a ++ []; fset := fset a; stack := stack a |})
    by (rewrite app_nil_r; by destruct a).
  destruct n as [| |p e fn args| | |]; try (exists []; split; [done|by rewrite <- Hid]).
  destruct fn as [q r nm| | | | |]; try (exists []; split; [done|by rewrite <- Hid]).
  simpl. destruct (String.eqb nm "make"); simpl;
    [|exists []; split; [done|by rewrite <- Hid]].
  destruct args as [|arg0 rest]; simpl; [exists []; split; [done|by rewrite <- Hid]|].
  destruct arg0; simpl; try (exists []; split; [done|by rewrite <- Hid]).
  destruct (bool_decide _); simpl; [|exists []; split; [done|by rewrite <- Hid]].
  eexists; split; reflexivity.
Qed.

Lemma dispatch_frame a n :
  ∃ new,
    dispatch {| issues := []; fset := fset a; stack := stack a |} n =
      Some {| issues := new; fset := fset a; stack := stack a |} ∧
    dispatch a n = Some {| issues := issues a ++ new; fset := fset a; stack := stack a |}.
Proof.
  assert (Hid : a = {| issues := issues a ++ []; fset := fset a; stack := stack a |})
    by (rewrite app_nil_r; by destruct a).
  destruct n; try (exists []; split; [done|simpl; by rewrite <- Hid]).
  - apply checkChannelCreation_frame.
  - simpl. eexists; split; [|by rewrite checkChannelSend_frame].
    by rewrite checkChannelSend_frame.
Qed.

(** Entering a node: the node is pushed and the issues of [emitted] are
    appended. *)
Lemma visit_enter a anc n :
  nodes (stack a) = Some <$> anc →
  visit a (Some n) =
    Some ({| issues := issues a ++ emitted (fset a) anc n; fset := fset a;
             stack := {| nodes := Some <$> (anc ++ [n]) |} |}, true).
Proof.
  intros Hst. unfold emitted, visit. simpl.
  rewrite Hst, fmap_app. simpl.
  destruct (dispatch_frame
    {| issues := issues a; fset := fset a;
       stack := {| nodes := (Some <$> anc) ++ [Some n] |} |} n) as (new & H0 & H1).
  simpl in H0, H1. unfold set_stack. simpl. rewrite H0, H1. reflexivity.
Qed.

Lemma visit_leave a anc n :
  nodes (stack a) = Some <$> (anc ++ [n]) →
  visit a None = Some (set_stack a {| nodes := Some <$> anc |}, true).
Proof. intros H. rewrite fmap_app in H. by apply (visit_nil_snoc _ _ (Some n)). Qed.

(** ** Recording does not change a run *)

Lemma traced_Some {S : Type} (f : S → option ast.Node → option (S * bool)) s log n s' more :
  f s n = Some (s', more) →
  traced f (s, log) n = Some ((s', log ++ [(s, n, s')]), more).
Proof. intros H. unfold traced. simpl. by rewrite H. Qed.

Lemma Inspect_traced_erase {S : Type} (f : S → option ast.Node → option (S * bool)) t :
  ∀ sl, fst <$> ast.Inspect (traced f) t sl = ast.Inspect f t sl.1.
Proof.
  induction t as [t IH] using Node_children_ind. intros [s log].
  rewrite !Inspect_unfold. unfold traced at 1 3. simpl.
  destruct (f s (Some t)) as [[s1 more]|]; simpl; [|done].
  destruct more; [|done].
  assert (Hl : ∀ sl, fst <$> ast.walkList (ast.Inspect (traced f)) (ast.children t) sl
                     = ast.walkList (ast.Inspect f) (ast.children t) sl.1).
  { induction IH as [|c cs Hc _ IHcs]; intros sl; [done|].
    rewrite !walkList_cons. specialize (Hc sl).
    destruct (ast.Inspect (traced f) c sl) as [sl'|]; simpl in *.
    - rewrite <- Hc. simpl. apply IHcs.
    - by rewrite <- Hc. }
  specialize (Hl (s1, log ++ [(s, Some t, s1)])). simpl in Hl.
  destruct (ast.walkList (ast.Inspect (traced f)) _ _) as [[s2 log2]|]; simpl in *.
  - rewrite <- Hl. simpl. by destruct (f s2 None) as [[s3 ?]|].
  - by rewrite <- Hl.
Qed.

Lemma traced_None {S : Type} (f : S → option ast.Node → option (S * bool)) s log n :
  f s n = None → traced f (s, log) n = None.
Proof. intros H. unfold traced. simpl. by rewrite H. Qed.

(** Every recorded call is a call that [f] has answered as recorded. *)
Lemma Inspect_traced_genuine {S : Type} (f : S → option ast.Node → option (S * bool)) t :
  ∀ s log s' log',
    ast.Inspect (traced f) t (s, log) = Some (s', log') →
    ∃ new, log' = log ++ new ∧ Forall (genuine f) new.
Proof.
  induction t as [t IH] using Node_children_ind. intros s log s' log'.
  rewrite Inspect_unfold.
  destruct (f s (Some t)) as [[s1 more]|] eqn:Hf;
    [rewrite (traced_Some _ _ _ _ _ _ Hf)|by rewrite (traced_None _ _ _ _ Hf)].
  assert (G1 : genuine f (s, Some t, s1)) by (by exists more).
  simpl. destruct more.
  2:{ intros [= <- <-]. exists [(s, Some t, s1)]. split; [done|]. by constructor. }
  assert (Hl : ∀ u lg u' lg',
            ast.walkList (ast.Inspect (traced f)) (ast.children t) (u, lg) = Some (u', lg') →
            ∃ new, lg' = lg ++ new ∧ Forall (genuine f) new).
  { induction IH as [|c cs Hc _ IHcs]; intros u lg u' lg'.
    - intros [= <- <-]. exists []. by rewrite app_nil_r.
    - rewrite walkList_cons.
      destruct (ast.Inspect (traced f) c (u, lg)) as [[u1 lg1]|] eqn:Hi; [|done].
      simpl. intros Hrest.
      destruct (Hc _ _ _ _ Hi) as (n1 & -> & F1).
      destruct (IHcs _ _ _ _ Hrest) as (n2 & -> & F2).
      exists (n1 ++ n2). rewrite app_assoc. split; [done|]. by apply Forall_app. }
  destruct (ast.walkList _ _ _) as [[s2 log2]|] eqn:Hw; [|done]. simpl.
  destruct (Hl _ _ _ _ Hw) as (n1 & -> & F1).
  destruct (f s2 None) as [[s3 more3]|] eqn:Hf3;
    [rewrite (traced_Some _ _ _ _ _ _ Hf3)|by rewrite (traced_None _ _ _ _ Hf3)].
  simpl. intros [= <- <-].
  exists ((s, Some t, s1) :: n1 ++ [(s2, None, s3)]). split.
  - by rewrite <- !app_assoc.
  - constructor; [done|]. apply Forall_app. split; [done|].
    constructor; [by exists more3|constructor].
Qed.

(** ** The shape of a traversal *)

(** The signals of a subtree stay below the ancestors it starts from. *)
Lemma traversal_below t :
  ∀ anc, Forall (λ sg, anc `prefix_of` ancestors sg) (traversal anc t).
Proof.
  induction t as [t IH] using Node_children_ind. intros anc.
  rewrite traversal_unfold. constructor; [done|].
  apply Forall_app. split; [|by repeat constructor].
  induction IH as [|c cs Hc _ IHcs]; [constructor|].
  simpl. apply Forall_app. split; [|exact IHcs].
  eapply Forall_impl; [apply Hc|]. intros sg Hsg. simpl in Hsg.
  etrans; [|exact Hsg]. by apply prefix_app_r.
Qed.

(** The signals of the children of [t] lie below [anc ++ [t]]. *)
Lemma traversal_below_children t anc i sg :
  (ast.children t ≫= traversal (anc ++ [t])) !! i = Some sg →
  (anc ++ [t]) `prefix_of` ancestors sg.
Proof.
  intros Hi.
  assert (H : Forall (λ sg, (anc ++ [t]) `prefix_of` ancestors sg)
                (ast.children t ≫= traversal (anc ++ [t]))).
  { generalize (ast.children t). intros cs.
    induction cs as [|c cs IH]; [constructor|].
    simpl. apply Forall_app. split; [apply traversal_below|exact IH]. }
  rewrite Forall_lookup in H. by apply (H i).
Qed.

(** Every path of a traversal starts at the root. *)
Lemma path_starts_at_root file i sg :
  traversal [] file !! i = Some sg → path_to sg !! 0%nat = Some file.
Proof.
  rewrite traversal_unfold. destruct i as [|i]; simpl.
  { by intros [= <-]. }
  intros Hi. apply lookup_app_Some in Hi as [Hi|[_ Hi]].
  - apply (traversal_below_children file []) in Hi as (k & Hk). simpl in Hk.
    destruct sg; simpl in *; by rewrite Hk.
  - destruct (i - _)%nat; simpl in Hi; [by injection Hi as <-|].
    by rewrite lookup_nil in Hi.
Qed.

(** A traversal has as many exits as entries. *)
Lemma traversal_balanced t :
  ∀ anc, entries (argument <$> traversal anc t) = exits (argument <$> traversal anc t).
Proof.
  induction t as [t IH] using Node_children_ind. intros anc.
  rewrite traversal_unfold. unfold entries, exits in *.
  rewrite fmap_cons, fmap_app. simpl.
  rewrite !List.filter_app, !length_app. simpl.
  enough (length (List.filter (λ n, negb (is_exit n))
                    (argument <$> ast.children t ≫= traversal (anc ++ [t]))) =
          length (List.filter is_exit
                    (argument <$> ast.children t ≫= traversal (anc ++ [t])))) by lia.
  induction IH as [|c cs Hc _ IHcs]; [reflexivity|].
  simpl. rewrite fmap_app, !List.filter_app, !length_app.
  f_equal; [apply Hc|exact IHcs].
Qed.

(** The signals from the entry of a node on begin with the whole
    traversal of that node: its entry, its descendants, its exit. *)
Lemma traversal_block t :
  ∀ anc0 i anc n,
    traversal anc0 t !! i = Some (Enter anc n) →
    ∃ post, drop i (traversal anc0 t) = traversal anc n ++ post.
Proof.
  induction t as [t IH] using Node_children_ind. intros anc0 i anc n.
  rewrite (traversal_unfold anc0 t).
  destruct i as [|i]; simpl.
  { intros [= <- <-]. exists []. by rewrite app_nil_r, (traversal_unfold anc0 t). }
  generalize (anc0 ++ [t]). intros below. revert i.
  induction IH as [|c cs Hc _ IHcs]; intros i; simpl.
  - destruct i; simpl; [done|]. by rewrite lookup_nil.
  - rewrite <- app_assoc.
    destruct (decide (i < length (traversal below c))%nat) as [Hlt|Hge].
    + rewrite lookup_app_l by done. intros Hi.
      destruct (Hc _ _ _ _ Hi) as (post & Hpost).
      rewrite drop_app_le by lia. rewrite Hpost, <- app_assoc. by eexists.
    + rewrite lookup_app_r by lia. intros Hi.
      destruct (IHcs _ Hi) as (post & Hpost).
      rewrite drop_app_ge by lia. by exists post.
Qed.

Lemma traversal_last anc t :
  last (traversal anc t) = Some (Leave anc t).
Proof. rewrite traversal_unfold, app_comm_cons. apply last_snoc. Qed.

Lemma traversal_length anc t : (2 ≤ length (traversal anc t))%nat.
Proof. rewrite traversal_unfold. simpl. rewrite length_app. simpl. lia. Qed.

(** The exit that matches an entry. *)
Lemma traversal_matching_leave t anc0 i anc n :
  traversal anc0 t !! i = Some (Enter anc n) →
  take (length (traversal anc n)) (drop i (traversal anc0 t)) = traversal anc n ∧
  traversal anc0 t !! (i + length (traversal anc n) - 1)%nat = Some (Leave anc n).
Proof.
  intros Hi. destruct (traversal_block _ _ _ _ _ Hi) as (post & Hpost).
  pose proof (traversal_length anc n) as Hlen.
  split.
  - by rewrite Hpost, take_app_length.
  - replace (i + length (traversal anc n) - 1)%nat
      with (i + (length (traversal anc n) - 1))%nat by lia.
    rewrite <- lookup_drop, Hpost, lookup_app_l by lia.
    replace (length (traversal anc n) - 1)%nat
      with (pred (length (traversal anc n))) by lia.
    rewrite <- last_lookup. apply traversal_last.
Qed.

(** The nodes that a traversal enters are the nodes of the tree, each
    with its ancestors. *)
Lemma entered_occurs root t :
  ∀ anc0, occurs_at root anc0 t →
    ∀ i anc n, traversal anc0 t !! i = Some (Enter anc n) → occurs_at root anc n.
Proof.
  induction t as [t IH] using Node_children_ind. intros anc0 Hocc i anc n.
  rewrite traversal_unfold. destruct i as [|i]; simpl.
  { by intros [= <- <-]. }
  intros Hi. apply lookup_app_Some in Hi as [Hi|[_ Hi]].
  - apply list_elem_of_lookup_2, list_elem_of_bind in Hi as (c & Hin & Hc).
    apply list_elem_of_lookup_1 in Hin as (k & Hk).
    rewrite Forall_forall in IH.
    apply (IH c Hc (anc0 ++ [t])) with k; [|exact Hk].
    by apply occurs_child.
  - destruct (i - _)%nat; simpl in Hi; [done|by rewrite lookup_nil in Hi].
Qed.

Lemma occurs_entered root anc n :
  occurs_at root anc n → ∃ i, traversal [] root !! i = Some (Enter anc n).
Proof.
  induction 1 as [|anc p c _ (i & Hi) Hc].
  { exists 0%nat. by rewrite traversal_unfold. }
  destruct (traversal_block _ _ _ _ _ Hi) as (post & Hpost).
  apply list_elem_of_lookup_1.
  rewrite <- (take_drop i (traversal [] root)), Hpost.
  apply elem_of_app. right. apply elem_of_app. left.
  rewrite (traversal_unfold anc p). right. apply elem_of_app. left.
  apply list_elem_of_bind. exists c. split; [|exact Hc].
  rewrite traversal_unfold. by left.
Qed.

(** Every node of the tree is entered, and nothing else is. *)
Lemma occurs_iff_entered root anc n :
  occurs_at root anc n ↔ ∃ i, traversal [] root !! i = Some (Enter anc n).
Proof.
  split; [apply occurs_entered|].
  intros (i & Hi). apply (entered_occurs root root [] (occurs_root root) i _ _ Hi).
Qed.

(** ** The run of the analyzer over a tree *)

Lemma report_app fs l1 l2 : report fs (l1 ++ l2) = report fs l1 ++ report fs l2.
Proof. apply bind_app. Qed.

Lemma report_enter fs anc n l :
  report fs (Enter anc n :: l) = emitted fs anc n ++ report fs l.
Proof. reflexivity. Qed.

Lemma report_leave fs anc n : report fs [Leave anc n] = [].
Proof. reflexivity. Qed.

(** Started below the ancestors [anc], the traversal of [t] makes exactly
    the calls of [traversal anc t], each with the stack that the signal
    expects, appends the issues of these signals and restores the stack. *)
Lemma Inspect_traced_visit t :
  ∀ anc a log, nodes (stack a) = Some <$> anc →
    ∃ calls,
      ast.Inspect (traced visit) t (a, log) =
        Some (state_after a anc (traversal anc t), log ++ calls) ∧
      observed <$> calls = expected <$> traversal anc t.
Proof.
  induction t as [t IH] using Node_children_ind. intros anc a log Hst.
  rewrite Inspect_unfold.
  rewrite (traced_Some _ _ _ _ _ _ (visit_enter a anc t Hst)). simpl.
  set (a1 := {| issues := issues a ++ emitted (fset a) anc t; fset := fset a;
                stack := {| nodes := Some <$> anc ++ [t] |} |}).
  assert (Hl : ∀ (b : Analyzer) lg, nodes (stack b) = Some <$> anc ++ [t] →
            ∃ calls,
              ast.walkList (ast.Inspect (traced visit)) (ast.children t) (b, lg) =
                Some (state_after b (anc ++ [t]) (ast.children t ≫= traversal (anc ++ [t])),
                      lg ++ calls) ∧
              observed <$> calls = expected <$> (ast.children t ≫= traversal (anc ++ [t]))).
  { clear a a1 Hst log.
    induction IH as [|c cs Hc _ IHcs]; intros b lg Hb.
    - exists []. simpl. unfold state_after, report. simpl.
      rewrite !app_nil_r. destruct b as [? ? [?]]; simpl in *; by subst.
    - destruct (Hc _ b lg Hb) as (calls1 & H1 & O1).
      rewrite walkList_cons, H1. simpl.
      destruct (IHcs (state_after b (anc ++ [t]) (traversal (anc ++ [t]) c))
                  (lg ++ calls1) eq_refl) as (calls2 & H2 & O2).
      exists (calls1 ++ calls2). rewrite H2. split.
      + unfold state_after. simpl. rewrite report_app, <- !app_assoc. reflexivity.
      + rewrite !fmap_app. by rewrite O1, O2. }
  destruct (Hl a1 (log ++ [(a, Some t, a1)]) eq_refl) as (calls & Hw & Ho).
  rewrite Hw. simpl.
  set (a2 := state_after a1 (anc ++ [t]) (ast.children t ≫= traversal (anc ++ [t]))).
  rewrite (traced_Some _ _ _ _ _ _ (visit_leave a2 anc t eq_refl)). simpl.
  assert (Hend : set_stack a2 {| nodes := Some <$> anc |} =
                 state_after a anc (traversal anc t)).
  { rewrite (traversal_unfold anc t). unfold state_after, set_stack, a2, a1, state_after.
    cbn [issues fset stack].
    rewrite report_enter, report_app, report_leave, app_nil_r, <- app_assoc.
    reflexivity. }
  exists ((a, Some t, a1) :: calls ++ [(a2, None, set_stack a2 {| nodes := Some <$> anc |})]).
  split.
  - rewrite Hend, <- !app_assoc. reflexivity.
  - rewrite (traversal_unfold anc t).
    rewrite !fmap_cons, !fmap_app, Ho. simpl. f_equal.
    unfold observed, expected. simpl. by rewrite Hst.
Qed.

(** [analyze] on a file: it never panics, appends the issues of the
    file's signals to those already collected, and leaves an empty stack. *)
Lemma analyze_file a file :
  analyze a (Some file) = Some (state_after a [] (traversal [] file)).
Proof.
  unfold analyze.
  pose proof (Inspect_traced_erase visit file (set_stack a {| nodes := [] |}, [])) as He.
  destruct (Inspect_traced_visit file [] (set_stack a {| nodes := [] |}) [] eq_refl)
    as (calls & H & _).
  rewrite H in He. simpl in He. by rewrite <- He.
Qed.

Lemma analyze_traced_erase a file :
  fst <$> analyze_traced a file = analyze a file.
Proof.
  destruct file as [f|]; [|done].
  apply (Inspect_traced_erase visit f (set_stack a {| nodes := [] |}, [])).
Qed.

(** The recorded run of [analyze] on a file. *)
Lemma analyze_traced_file a file :
  ∃ calls,
    analyze_traced a (Some file) =
      Some (state_after a [] (traversal [] file), calls) ∧
    observed <$> calls = expected <$> traversal [] file.
Proof.
  destruct (Inspect_traced_visit file [] (set_stack a {| nodes := [] |}) [] eq_refl)
    as (calls & H & Ho).
  exists calls. split; [exact H|exact Ho].
Qed.

(** The recorded call at the place of a signal. *)
Lemma call_at_signal (calls : list (Analyzer * option ast.Node * Analyzer))
    (sgs : list Signal) (i : nat) (sg : Signal) :
  observed <$> calls = expected <$> sgs →
  sgs !! i = Some sg →
  ∃ s s', calls !! i = Some (s, argument sg, s') ∧
          nodes (stack s) = Some <$> stack_before sg ∧
          nodes (stack s') = Some <$> stack_after sg.
Proof.
  intros Ho Hi.
  assert (H : (observed <$> calls) !! i = Some (expected sg))
    by (rewrite Ho, list_lookup_fmap, Hi; reflexivity).
  rewrite list_lookup_fmap in H.
  destruct (calls !! i) as [[[s n] s']|]; simpl in H; [|done].
  unfold observed, expected in H. simpl in H.
  injection H as H1 H2 H3. subst n. by exists s, s'.
Qed.

(** ** The rules *)

Lemma inSelect_spec (l : list ast.Node) :
  inSelect (Some <$> l) = true ↔ ∃ q r b, ast.SelectStmt q r b ∈ l.
Proof.
  induction l as [|x l IH]; simpl.
  - split; [done|]. intros (q & r & b & H). by apply elem_of_nil in H.
  - destruct x; simpl;
      try (rewrite IH; split;
           [intros (q & r & b & H); exists q, r, b; by right
           |intros (q & r & b & H); apply elem_of_cons in H as [H|H];
            [done|by exists q, r, b]]).
    split; [intros _|done]. eexists _, _, _. by left.
Qed.

Lemma emitted_send fs anc p e c v :
  emitted fs anc (ast.SendStmt p e c v) =
    if inSelect (Some <$> anc) then [] else [sendWarning (fs p) (fs e)].
Proof.
  unfold emitted, visit, dispatch, checkChannelSend. simpl.
  assert (H : inSelect ((Some <$> anc) ++ [Some (ast.SendStmt p e c v)])
              = inSelect (Some <$> anc)).
  { induction anc as [|x anc IH]; [reflexivity|]. destruct x; simpl; first [exact IH|reflexivity]. }
  rewrite H. destruct (inSelect (Some <$> anc)); reflexivity.
Qed.

Lemma emitted_call fs anc p e fn args :
  emitted fs anc (ast.CallExpr p e fn args) =
    match fn, args with
    | ast.Ident _ _ "make", [ast.ChanType _ _ _] => [creationInfo (fs p) (fs e)]
    | _, _ => []
    end.
Proof.
  unfold emitted, visit. simpl.
  destruct fn as [q r nm| | | | |]; try reflexivity.
  simpl. destruct (String.eqb_spec nm "make") as [->|Hne]; simpl.
  - destruct args as [|arg0 rest]; [done|]. simpl.
    destruct arg0; try done. destruct rest as [|arg1 rest]; [reflexivity|].
    rewrite bool_decide_eq_false_2; [reflexivity|].
    unfold len. simpl length. lia.
  - destruct nm as [|c0 nm]; [done|].
    repeat (match goal with
            | |- context [match ?x with _ => _ end] => destruct x; try done
            end).
Qed.

Lemma emitted_other fs anc n :
  (∀ p e c v, n ≠ ast.SendStmt p e c v) →
  (∀ p e fn args, n ≠ ast.CallExpr p e fn args) →
  emitted fs anc n = [].
Proof. intros Hs Hc. destruct n; try done; [by edestruct Hc|by edestruct Hs]. Qed.

(** The callback pushes the node and then runs the type switch on the
    analyzer with the node on its stack. *)
Lemma visit_rule_input s n :
  visit s (Some n) = r ← dispatch (rule_input s n) n; Some (r, true).
Proof. reflexivity. Qed.

(** The callback answers every call, and always with [true]. *)
Lemma visit_total a n : ∃ a', visit a n = Some (a', true).
Proof.
  destruct n as [n|].
  - rewrite visit_rule_input.
    destruct (dispatch_frame (rule_input a n) n) as (new & _ & ->). by eexists.
  - unfold visit. destruct (bool_decide _); [|by eexists].
    rewrite pop_total. by eexists.
Qed.

Lemma emitted_two_forms fs anc n : Forall two_forms (emitted fs anc n).
Proof.
  destruct n as [| |p e fn args|p e c v| |];
    try (rewrite emitted_other by done; constructor).
  - assert (H : emitted fs anc (ast.CallExpr p e fn args) = [] ∨
                emitted fs anc (ast.CallExpr p e fn args) = [creationInfo (fs p) (fs e)]).
    { rewrite emitted_call.
      repeat (match goal with
              | |- context [match ?x with _ => _ end] => destruct x; auto
              end). }
    destruct H as [->| ->]; [constructor|].
    constructor; [right; by split|constructor].
  - rewrite emitted_send. destruct (inSelect _); [constructor|].
    constructor; [left; by split|constructor].
Qed.

Lemma report_two_forms fs sgs : Forall two_forms (report fs sgs).
Proof.
  induction sgs as [|sg sgs IH]; [constructor|].
  change (report fs (sg :: sgs)) with (emitted_at fs sg ++ report fs sgs).
  apply Forall_app. split; [|exact IH].
  destruct sg; [apply emitted_two_forms|constructor].
Qed.

(** Splitting the report at a signal. *)
Lemma report_split fs (sgs : list Signal) i sg :
  sgs !! i = Some sg →
  report fs sgs =
    report fs (take i sgs) ++ emitted_at fs sg ++ report fs (drop (S i) sgs).
Proof.
  intros H. rewrite <- (take_drop_middle sgs i sg H) at 1.
  rewrite report_app. f_equal.
Qed.

(** ** The root file and [main.go] *)

(** Two callbacks that keep a relation between their states, and agree on
    what they return, keep it over a whole traversal. *)
Lemma Inspect_sim {S1 S2 : Type} (R : S1 → S2 → Prop)
    (f1 : S1 → option ast.Node → option (S1 * bool))
    (f2 : S2 → option ast.Node → option (S2 * bool)) :
  (∀ s1 s2 n, R s1 s2 →
     option_Forall2 (λ x y, R x.1 y.1 ∧ x.2 = y.2) (f1 s1 n) (f2 s2 n)) →
  ∀ t s1 s2, R s1 s2 →
    option_Forall2 R (ast.Inspect f1 t s1) (ast.Inspect f2 t s2).
Proof.
  intros Hf. induction t as [t IH] using Node_children_ind. intros s1 s2 HR.
  rewrite !Inspect_unfold.
  destruct (Hf s1 s2 (Some t) HR) as [[u1 b1] [u2 b2] [Hu Hb]|]; [|constructor].
  simpl in *. subst b2. destruct b1; [|by constructor].
  assert (Hl : ∀ v1 v2, R v1 v2 →
            option_Forall2 R (ast.walkList (ast.Inspect f1) (ast.children t) v1)
                             (ast.walkList (ast.Inspect f2) (ast.children t) v2)).
  { induction IH as [|c cs Hc _ IHcs]; intros v1 v2 Hv; [by constructor|].
    rewrite !walkList_cons.
    destruct (Hc v1 v2 Hv) as [w1 w2 Hw|]; [|constructor]. simpl. by apply IHcs. }
  destruct (Hl u1 u2 Hu) as [w1 w2 Hw|]; [|constructor]. simpl.
  destruct (Hf w1 w2 None Hw) as [[x1 c1] [x2 c2] [Hx _]|]; [|constructor].
  simpl in *. by constructor.
Qed.

Lemma RootCopy_inSelect l : RootCopy.inSelect l = inSelect l.
Proof.
  induction l as [|[n|] l IH]; [reflexivity| |exact IH].
  destruct n; simpl; first [exact IH|reflexivity].
Qed.

Lemma RootCopy_pop p : RootCopy.pop p = pop p.
Proof. reflexivity. Qed.

Lemma corresponds_addIssue l m li mi :
  corresponds l m → same_finding li mi →
  corresponds (RootCopy.addIssue l li) (addIssue m mi).
Proof.
  intros (Hs & Hf & Hi) Hsame. split; [exact Hs|]. split; [exact Hf|].
  simpl. apply Forall2_app; [exact Hi|]. constructor; [exact Hsame|constructor].
Qed.

(** The callbacks of the two programs correspond. *)
Lemma visit_corresponds l m n :
  corresponds l m →
  option_Forall2 (λ x y, corresponds x.1 y.1 ∧ x.2 = y.2) (RootCopy.visit l n) (visit m n).
Proof.
  intros (Hs & Hf & Hi).
  destruct n as [node|]; simpl.
  - set (l1 := RootCopy.set_stack l (RootCopy.push (RootCopy.stack l) (Some node))).
    set (m1 := set_stack m {| nodes := nodes (stack m) ++ [Some node] |}).
    assert (H1 : corresponds l1 m1).
    { split; [simpl; by rewrite Hs|]. by split. }
    destruct node as [| |p e fn args|p e c v| |];
      try (constructor; by split).
    + destruct fn as [q r nm| | | | |]; try (constructor; by split).
      simpl. destruct (String.eqb nm "make"); simpl; [|constructor; by split].
      destruct (bool_decide (0 < len args)); [|constructor; by split].
      destruct (index args 0) as [arg0|]; simpl; [|constructor].
      destruct arg0; try (constructor; by split).
      destruct (bool_decide (len args = 1)); constructor; split; try done.
      apply corresponds_addIssue; [exact H1|].
      unfold same_finding, getPosition. simpl. by rewrite Hf.
    + simpl. unfold RootCopy.checkChannelSend, checkChannelSend.
      rewrite RootCopy_inSelect.
      replace (nodes (RootCopy.stack l1)) with (nodes (stack m1)) by (symmetry; apply H1).
      destruct (inSelect (nodes (stack m1))); constructor; split; try done.
      apply corresponds_addIssue; [exact H1|].
      unfold same_finding, getPosition. simpl. by rewrite Hf.
  - rewrite Hs. destruct (bool_decide _); [|constructor; by split].
    rewrite RootCopy_pop.
    replace (RootCopy.stack l) with (stack m)
      by (destruct l as [? ? [?]], m as [? ? [?]]; simpl in *; by subst).
    destruct (pop (stack m)); constructor. by split.
Qed.

(** X15. On a parsed file the root program finds what [main.go] finds,
    issue by issue, and records for each the start of the range only. *)
Lemma root_copy_same_findings l m file :
  RootCopy.fset l = fset m →
  Forall2 same_finding (RootCopy.issues l) (issues m) →
  ∃ l' m',
    RootCopy.analyze l file = Some l' ∧
    analyze m (Some file) = Some m' ∧
    Forall2 same_finding (RootCopy.issues l') (issues m').
Proof.
  intros Hf Hi.
  assert (H0 : corresponds (RootCopy.set_stack l {| nodes := [] |})
                           (set_stack m {| nodes := [] |})) by (by split).
  pose proof (Inspect_sim corresponds RootCopy.visit visit
                (λ s1 s2 n, visit_corresponds s1 s2 n) file _ _ H0) as Hsim.
  fold (RootCopy.analyze l file) in Hsim.
  change (ast.Inspect visit file (set_stack m {| nodes := [] |}))
    with (analyze m (Some file)) in Hsim.
  rewrite analyze_file in Hsim |- *.
  inversion Hsim as [l' m' (_ & _ & Hiss) Hl Hm|]; subst.
  by exists l', (state_after m [] (traversal [] file)).
Qed.

(** *** The run of the root file over a tree *)

Lemma root_visit_enter l anc n :
  nodes (RootCopy.stack l) = Some <$> anc →
  RootCopy.visit l (Some n) =
    Some ({| RootCopy.issues := RootCopy.issues l ++ root_emitted (RootCopy.fset l) anc n;
             RootCopy.fset := RootCopy.fset l;
             RootCopy.stack := {| nodes := Some <$> (anc ++ [n]) |} |}, true).
Proof.
  intros Hst. unfold root_emitted, RootCopy.visit, RootCopy.push. simpl.
  rewrite Hst, fmap_app. simpl.
  assert (Hid : ∀ st, RootCopy.set_stack l st =
            {| RootCopy.issues := RootCopy.issues l ++ [];
               RootCopy.fset := RootCopy.fset l; RootCopy.stack := st |})
    by (intros st; by rewrite app_nil_r).
  destruct n as [| |p e fn args|p e c v| |]; simpl; try (by rewrite Hid).
  - destruct fn as [q r nm| | | | |]; simpl; try (by rewrite Hid).
    destruct (String.eqb nm "make"); simpl; [|by rewrite Hid].
    destruct args as [|arg0 rest]; simpl; [by rewrite Hid|].
    destruct arg0; simpl; try (by rewrite Hid).
    destruct (bool_decide _); simpl; [reflexivity|by rewrite Hid].
  - unfold RootCopy.checkChannelSend. simpl.
    destruct (RootCopy.inSelect _); simpl; [by rewrite Hid|reflexivity].
Qed.

Lemma root_visit_leave l anc n :
  nodes (RootCopy.stack l) = Some <$> (anc ++ [n]) →
  RootCopy.visit l None = Some (RootCopy.set_stack l {| nodes := Some <$> anc |}, true).
Proof.
  intros H. rewrite fmap_app in H. simpl in H. unfold RootCopy.visit. rewrite H.
  rewrite bool_decide_eq_true_2
    by (rewrite len_app_one; pose proof (len_nonneg (Some <$> anc)); lia).
  destruct l as [iss fs [st]]; simpl in *; subst st.
  rewrite RootCopy_pop. by rewrite pop_snoc.
Qed.

Lemma root_report_app fs l1 l2 :
  root_report fs (l1 ++ l2) = root_report fs l1 ++ root_report fs l2.
Proof. apply bind_app. Qed.

(** Started below the ancestors [anc], the traversal of [t] by the root
    file appends the issues of the signals of [t] and restores the stack. *)
Lemma root_Inspect_visit t :
  ∀ anc l, nodes (RootCopy.stack l) = Some <$> anc →
    ast.Inspect RootCopy.visit t l =
      Some {| RootCopy.issues :=
                RootCopy.issues l ++ root_report (RootCopy.fset l) (traversal anc t);
              RootCopy.fset := RootCopy.fset l;
              RootCopy.stack := {| nodes := Some <$> anc |} |}.
Proof.
  induction t as [t IH] using Node_children_ind. intros anc l Hst.
  rewrite Inspect_unfold, (root_visit_enter l anc t Hst). simpl.
  assert (Hl : ∀ b, nodes (RootCopy.stack b) = Some <$> anc ++ [t] →
            ast.walkList (ast.Inspect RootCopy.visit) (ast.children t) b =
              Some {| RootCopy.issues :=
                        RootCopy.issues b ++
                        root_report (RootCopy.fset b)
                          (ast.children t ≫= traversal (anc ++ [t]));
                      RootCopy.fset := RootCopy.fset b;
                      RootCopy.stack := {| nodes := Some <$> anc ++ [t] |} |}).
  { clear l Hst. induction IH as [|c cs Hc _ IHcs]; intros b Hb.
    - simpl. unfold root_report. simpl. rewrite app_nil_r.
      destruct b as [? ? [?]]; simpl in *; by subst.
    - rewrite walkList_cons, (Hc _ b Hb). simpl.
      rewrite IHcs by reflexivity. simpl.
      change ((c :: cs) ≫= traversal (anc ++ [t]))
        with (traversal (anc ++ [t]) c ++ (cs ≫= traversal (anc ++ [t]))).
      by rewrite root_report_app, <- app_assoc. }
  rewrite Hl by reflexivity.
  match goal with
  | |- Some ?x ≫= _ = _ => pose proof (root_visit_leave x anc t eq_refl) as Hleave
  end.
  simpl in Hleave |- *. rewrite Hleave. simpl.
  unfold RootCopy.set_stack. simpl.
  rewrite (traversal_unfold anc t).
  change (root_report (RootCopy.fset l)
            (Enter anc t :: (ast.children t ≫= traversal (anc ++ [t])) ++ [Leave anc t]))
    with (root_emitted (RootCopy.fset l) anc t ++
          root_report (RootCopy.fset l)
            ((ast.children t ≫= traversal (anc ++ [t])) ++ [Leave anc t])).
  rewrite root_report_app.
  change (root_report (RootCopy.fset l) [Leave anc t]) with (@nil RootCopy.Issue).
  by rewrite app_nil_r, <- app_assoc.
Qed.

Lemma root_analyze_file l file :
  RootCopy.analyze l file =
    Some {| RootCopy.issues :=
              RootCopy.issues l ++ root_report (RootCopy.fset l) (traversal [] file);
            RootCopy.fset := RootCopy.fset l;
            RootCopy.stack := {| nodes := [] |} |}.
Proof.
  unfold RootCopy.analyze.
  by rewrite (root_Inspect_visit file [] (RootCopy.set_stack l {| nodes := [] |}) eq_refl).
Qed.

Lemma root_emitted_send fs anc p e c v :
  root_emitted fs anc (ast.SendStmt p e c v) =
    if inSelect (Some <$> anc) then []
    else [ {| RootCopy.Pos := fs p;
              RootCopy.Message :=
                "channel send without select statement may block indefinitely";
              RootCopy.Severity := "WARNING" |} ].
Proof.
  unfold root_emitted, RootCopy.visit, RootCopy.checkChannelSend. simpl.
  rewrite RootCopy_inSelect.
  assert (H : inSelect ((Some <$> anc) ++ [Some (ast.SendStmt p e c v)])
              = inSelect (Some <$> anc)).
  { induction anc as [|x anc IH]; [reflexivity|]. destruct x; simpl; first [exact IH|reflexivity]. }
  rewrite H. destruct (inSelect (Some <$> anc)); reflexivity.
Qed.

Lemma root_emitted_call fs anc p e fn args :
  root_emitted fs anc (ast.CallExpr p e fn args) =
    match fn, args with
    | ast.Ident _ _ "make", [ast.ChanType _ _ _] =>
        [ {| RootCopy.Pos := fs p;
             RootCopy.Message :=
               "unbuffered channel creation detected - consider specifying buffer size";
             RootCopy.Severity := "INFO" |} ]
    | _, _ => []
    end.
Proof.
  unfold root_emitted, RootCopy.visit. simpl.
  destruct fn as [q r nm| | | | |]; try reflexivity.
  simpl. destruct (String.eqb_spec nm "make") as [->|Hne]; simpl.
  - destruct args as [|arg0 rest]; [done|]. simpl.
    destruct arg0; try done. destruct rest as [|arg1 rest]; [reflexivity|].
    rewrite bool_decide_eq_false_2; [reflexivity|].
    unfold len. simpl length. lia.
  - destruct nm as [|c0 nm]; [done|].
    repeat (match goal with
            | |- context [match ?x with _ => _ end] => destruct x; try done
            end).
Qed.

Lemma root_report_split fs (sgs : list Signal) i sg :
  sgs !! i = Some sg →
  root_report fs sgs =
    root_report fs (take i sgs) ++ root_emitted_at fs sg ++ root_report fs (drop (S i) sgs).
Proof.
  intros H. rewrite <- (take_drop_middle sgs i sg H) at 1.
  rewrite root_report_app. f_equal.
Qed.

(** * The claims *)

(** ** Rule: channel send without select *)

(** C1, as stated, fails in the root file. There the issue of a send
    statement holds [a.fset.Position(node.Pos())], the point where the
    statement starts, and [node.End()] is never read: two sends that start
    at the same place and end at different places get the same issue, at
    [a.go:4:1], so its location is not the source range of the send. In
    [main.go] the two issues differ, in the end of the range. *)
Lemma root_copy_send_location_is_a_point :
  ∃ l1 l2 m1 m2,
    RootCopy.analyze Sample.rootFresh (Sample.file 1 [Sample.sendUntil 301 308]) = Some l1 ∧
    RootCopy.analyze Sample.rootFresh (Sample.file 1 [Sample.sendUntil 301 420]) = Some l2 ∧
    RootCopy.issues l1 =
      [ {| RootCopy.Pos := token.mkPosition "a.go" 300 4 1;
           RootCopy.Message :=
             "channel send without select statement may block indefinitely";
           RootCopy.Severity := "WARNING" |} ] ∧
    RootCopy.issues l2 = RootCopy.issues l1 ∧
    analyze Sample.fresh (Some (Sample.file 1 [Sample.sendUntil 301 308])) = Some m1 ∧
    analyze Sample.fresh (Some (Sample.file 1 [Sample.sendUntil 301 420])) = Some m2 ∧
    Pos <$> issues m1 = [mkPos "a.go" 4 1 4 8] ∧
    Pos <$> issues m2 = [mkPos "a.go" 4 1 5 20].
Proof.
  eexists _, _, _, _.
  split; [apply root_analyze_file|]. split; [apply root_analyze_file|].
  split; [reflexivity|]. split; [reflexivity|].
  split; [apply analyze_file|]. split; [apply analyze_file|].
  split; reflexivity.
Qed.

(** C1, amended. A send statement of the tree with no select statement
    among its ancestors contributes exactly one issue to the collector,
    with severity WARNING and the fixed message; the issues before and
    after it are those of the other signals. In [main.go] the location of
    the issue is the source range of the send, from its position to its
    end; in the root file it is the position where the send starts. *)
Theorem send_outside_select_one_warning (a : Analyzer) (l : RootCopy.Analyzer)
    (file : ast.Node) (i : nat)
    (anc : list ast.Node) (p e : token.Pos) (c v : ast.Node) :
  traversal [] file !! i = Some (Enter anc (ast.SendStmt p e c v)) →
  (∀ q r b, ast.SelectStmt q r b ∉ anc) →
  occurs_at file anc (ast.SendStmt p e c v) ∧
  (∃ a',
    analyze a (Some file) = Some a' ∧
    issues a' =
      issues a ++ report (fset a) (take i (traversal [] file)) ++
      [ {| Pos := {| Filename := token.Filename (fset a p);
                     StartLine := token.Line (fset a p);
                     StartColumn := token.Column (fset a p);
                     EndLine := token.Line (fset a e);
                     EndColumn := token.Column (fset a e) |};
           Message := "channel send without select statement may block indefinitely";
           Severity := "WARNING" |} ] ++
      report (fset a) (drop (S i) (traversal [] file))) ∧
  (∃ l',
    RootCopy.analyze l file = Some l' ∧
    RootCopy.issues l' =
      RootCopy.issues l ++ root_report (RootCopy.fset l) (take i (traversal [] file)) ++
      [ {| RootCopy.Pos := RootCopy.fset l p;
           RootCopy.Message :=
             "channel send without select statement may block indefinitely";
           RootCopy.Severity := "WARNING" |} ] ++
      root_report (RootCopy.fset l) (drop (S i) (traversal [] file))).
Proof.
  intros Hi Hno. split; [apply occurs_iff_entered; by exists i|].
  assert (Hsel : inSelect (Some <$> anc) = false).
  { destruct (inSelect (Some <$> anc)) eqn:Hsel; [|reflexivity].
    apply inSelect_spec in Hsel as (q & r & b & Hin). by destruct (Hno q r b). }
  split.
  - eexists. split; [apply analyze_file|].
    unfold state_after. simpl. f_equal.
    rewrite (report_split _ _ _ _ Hi). f_equal. f_equal.
    simpl. by rewrite emitted_send, Hsel.
  - eexists. split; [apply root_analyze_file|].
    simpl. f_equal.
    rewrite (root_report_split _ _ _ _ Hi). f_equal. f_equal.
    simpl. by rewrite root_emitted_send, Hsel.
Qed.

Lemma send_outside_select_one_warning_witness :
  traversal [] Sample.scenarioE !! 25%nat =
    Some (Enter (Sample.above 1 [Sample.select 301 500 (Sample.send 316) []; Sample.send 601])
                (Sample.send 601)) ∧
  occurs_at Sample.scenarioE
    (Sample.above 1 [Sample.select 301 500 (Sample.send 316) []; Sample.send 601])
    (Sample.send 601) ∧
  (∃ a',
    analyze Sample.fresh (Some Sample.scenarioE) = Some a' ∧
    issues a' =
      [] ++ report Sample.fileSet (take 25 (traversal [] Sample.scenarioE)) ++
      [ {| Pos := {| Filename := "a.go"; StartLine := 7; StartColumn := 1;
                     EndLine := 7; EndColumn := 8 |};
           Message := "channel send without select statement may block indefinitely";
           Severity := "WARNING" |} ] ++
      report Sample.fileSet (drop 26 (traversal [] Sample.scenarioE))) ∧
  (∃ l',
    RootCopy.analyze Sample.rootFresh Sample.scenarioE = Some l' ∧
    RootCopy.issues l' =
      [] ++ root_report Sample.fileSet (take 25 (traversal [] Sample.scenarioE)) ++
      [ {| RootCopy.Pos := token.mkPosition "a.go" 600 7 1;
           RootCopy.Message :=
             "channel send without select statement may block indefinitely";
           RootCopy.Severity := "WARNING" |} ] ++
      root_report Sample.fileSet (drop 26 (traversal [] Sample.scenarioE))).
Proof.
  split; [reflexivity|].
  apply (send_outside_select_one_warning Sample.fresh Sample.rootFresh Sample.scenarioE 25
           (Sample.above 1 [Sample.select 301 500 (Sample.send 316) []; Sample.send 601])
           601 608 (ast.Ident 601 603 "ch") (ast.Other "BasicLit" 607 608 []));
    [reflexivity|].
  intros q r b. unfold Sample.above. absent.
Defined.

(** C2. A send statement of the tree with a select statement anywhere
    among its ancestors contributes no issue, whatever the other ancestors
    are. *)
Theorem send_under_select_no_warning (a : Analyzer) (file : ast.Node) (i : nat)
    (anc : list ast.Node) (p e : token.Pos) (c v : ast.Node)
    (q r : token.Pos) (b : ast.Node) :
  traversal [] file !! i = Some (Enter anc (ast.SendStmt p e c v)) →
  ast.SelectStmt q r b ∈ anc →
  occurs_at file anc (ast.SendStmt p e c v) ∧
  emitted (fset a) anc (ast.SendStmt p e c v) = [] ∧
  ∃ a',
    analyze a (Some file) = Some a' ∧
    issues a' =
      issues a ++ report (fset a) (take i (traversal [] file)) ++
      report (fset a) (drop (S i) (traversal [] file)).
Proof.
  intros Hi Hin.
  assert (Hem : emitted (fset a) anc (ast.SendStmt p e c v) = []).
  { rewrite emitted_send.
    destruct (inSelect (Some <$> anc)) eqn:Hsel; [reflexivity|].
    assert (inSelect (Some <$> anc) = true) as Htrue
      by (apply inSelect_spec; by exists q, r, b).
    congruence. }
  split; [apply occurs_iff_entered; by exists i|]. split; [exact Hem|].
  eexists. split; [apply analyze_file|].
  unfold state_after. simpl. f_equal.
  rewrite (report_split _ _ _ _ Hi). simpl. by rewrite Hem.
Qed.

Lemma send_under_select_no_warning_witness :
  ∃ anc,
    traversal [] Sample.scenarioD !! 18%nat = Some (Enter anc (Sample.send 421)) ∧
    length anc = 8%nat ∧
    occurs_at Sample.scenarioD anc (Sample.send 421) ∧
    emitted Sample.fileSet anc (Sample.send 421) = [] ∧
    ∃ a',
      analyze Sample.fresh (Some Sample.scenarioD) = Some a' ∧
      issues a' =
        [] ++ report Sample.fileSet (take 18 (traversal [] Sample.scenarioD)) ++
        report Sample.fileSet (drop 19 (traversal [] Sample.scenarioD)).
Proof.
  eexists. split; [reflexivity|]. split; [reflexivity|].
  eapply (send_under_select_no_warning Sample.fresh Sample.scenarioD 18); [reflexivity|].
  apply (list_elem_of_lookup_2 _ 3%nat). reflexivity.
Defined.

(** ** Rule: unbuffered channel creation *)

(** The cases of the creation rule, for the issue of a call. *)
Lemma creation_cases {A} (one : list A) (fn : ast.Node) (args : list ast.Node) :
  let own := match fn, args with
             | ast.Ident _ _ "make", [ast.ChanType _ _ _] => one
             | _, _ => []
             end in
  (∀ q r q' r' v rest,
     fn = ast.Ident q r "make" → args = ast.ChanType q' r' v :: rest →
     (rest = [] → own = one) ∧ (rest ≠ [] → own = [])) ∧
  ((∀ q r, fn ≠ ast.Ident q r "make") → own = []) ∧
  ((∀ q r v rest, args ≠ ast.ChanType q r v :: rest) → own = []).
Proof.
  intros own. unfold own. split; [|split].
  - intros q r q' r' v rest -> ->. split.
    + by intros ->.
    + intros Hne. by destruct rest.
  - intros Hfn. destruct fn as [q r nm| | | | |]; try reflexivity.
    destruct (String.eqb_spec nm "make") as [->|Hne]; [by destruct (Hfn q r)|].
    destruct nm as [|c0 nm]; [done|].
    repeat (match goal with
            | |- context [match ?x with _ => _ end] => destruct x; try done
            end).
  - intros Harg.
    assert (Hnil : match args with
                   | [ast.ChanType _ _ _] => one
                   | _ => []
                   end = []).
    { destruct args as [|[] rest]; try reflexivity. by edestruct Harg. }
    destruct fn as [q r nm| | | | |]; try reflexivity.
    repeat (match goal with
            | |- context [match ?x with _ => _ end] =>
                lazymatch x with
                | args => fail
                | _ => destruct x; try done
                end
            end).
Qed.

(** C3, as stated, fails in the root file. There the issue of a call
    [make(chan T)] holds [a.fset.Position(node.Pos())], the point where the
    call starts, and [node.End()] is never read: two such calls that start
    at the same place and end at different places get the same issue, at
    [a.go:3:7], so its location is not the source range of the call. In
    [main.go] the two issues differ, in the end of the range. *)
Lemma root_copy_call_location_is_a_point :
  ∃ l1 l2 m1 m2,
    RootCopy.analyze Sample.rootFresh
      (Sample.file 1 [Sample.assign 201 (Sample.makeChanUntil 207 221)]) = Some l1 ∧
    RootCopy.analyze Sample.rootFresh
      (Sample.file 1 [Sample.assign 201 (Sample.makeChanUntil 207 330)]) = Some l2 ∧
    RootCopy.issues l1 =
      [ {| RootCopy.Pos := token.mkPosition "a.go" 206 3 7;
           RootCopy.Message :=
             "unbuffered channel creation detected - consider specifying buffer size";
           RootCopy.Severity := "INFO" |} ] ∧
    RootCopy.issues l2 = RootCopy.issues l1 ∧
    analyze Sample.fresh
      (Some (Sample.file 1 [Sample.assign 201 (Sample.makeChanUntil 207 221)])) = Some m1 ∧
    analyze Sample.fresh
      (Some (Sample.file 1 [Sample.assign 201 (Sample.makeChanUntil 207 330)])) = Some m2 ∧
    Pos <$> issues m1 = [mkPos "a.go" 3 7 3 21] ∧
    Pos <$> issues m2 = [mkPos "a.go" 3 7 4 30].
Proof.
  eexists _, _, _, _.
  split; [apply root_analyze_file|]. split; [apply root_analyze_file|].
  split; [reflexivity|]. split; [reflexivity|].
  split; [apply analyze_file|]. split; [apply analyze_file|].
  split; reflexivity.
Qed.

(** C3, amended. A call expression of the tree contributes one INFO issue
    with the fixed message when its callee is the identifier [make] and its
    only argument is a channel type; with further arguments, another callee
    or another first argument it contributes nothing. In [main.go] the
    location of the issue is the source range of the call, from its
    position to its end; in the root file it is the position where the call
    starts. *)
Theorem make_chan_call_issue (a : Analyzer) (l : RootCopy.Analyzer)
    (file : ast.Node) (i : nat)
    (anc : list ast.Node) (p e : token.Pos) (fn : ast.Node) (args : list ast.Node) :
  traversal [] file !! i = Some (Enter anc (ast.CallExpr p e fn args)) →
  occurs_at file anc (ast.CallExpr p e fn args) ∧
  (∃ a' own,
    analyze a (Some file) = Some a' ∧
    issues a' =
      issues a ++ report (fset a) (take i (traversal [] file)) ++ own ++
      report (fset a) (drop (S i) (traversal [] file)) ∧
    (∀ q r q' r' v rest,
       fn = ast.Ident q r "make" → args = ast.ChanType q' r' v :: rest →
       (rest = [] →
        own = [ {| Pos := {| Filename := token.Filename (fset a p);
                             StartLine := token.Line (fset a p);
                             StartColumn := token.Column (fset a p);
                             EndLine := token.Line (fset a e);
                             EndColumn := token.Column (fset a e) |};
                   Message := "unbuffered channel creation detected - consider specifying buffer size";
                   Severity := "INFO" |} ]) ∧
       (rest ≠ [] → own = [])) ∧
    ((∀ q r, fn ≠ ast.Ident q r "make") → own = []) ∧
    ((∀ q r v rest, args ≠ ast.ChanType q r v :: rest) → own = [])) ∧
  (∃ l' own,
    RootCopy.analyze l file = Some l' ∧
    RootCopy.issues l' =
      RootCopy.issues l ++ root_report (RootCopy.fset l) (take i (traversal [] file)) ++
      own ++ root_report (RootCopy.fset l) (drop (S i) (traversal [] file)) ∧
    (∀ q r q' r' v rest,
       fn = ast.Ident q r "make" → args = ast.ChanType q' r' v :: rest →
       (rest = [] →
        own = [ {| RootCopy.Pos := RootCopy.fset l p;
                   RootCopy.Message :=
                     "unbuffered channel creation detected - consider specifying buffer size";
                   RootCopy.Severity := "INFO" |} ]) ∧
       (rest ≠ [] → own = [])) ∧
    ((∀ q r, fn ≠ ast.Ident q r "make") → own = []) ∧
    ((∀ q r v rest, args ≠ ast.ChanType q r v :: rest) → own = [])).
Proof.
  intros Hi. split; [apply occurs_iff_entered; by exists i|]. split.
  - exists (state_after a [] (traversal [] file)),
      (emitted (fset a) anc (ast.CallExpr p e fn args)).
    split; [apply analyze_file|]. split.
    { unfold state_after. simpl. f_equal. by rewrite (report_split _ _ _ _ Hi). }
    rewrite emitted_call.
    apply (creation_cases [creationInfo (fset a p) (fset a e)] fn args).
  - eexists _, (root_emitted (RootCopy.fset l) anc (ast.CallExpr p e fn args)).
    split; [apply root_analyze_file|]. split.
    { simpl. f_equal. by rewrite (root_report_split _ _ _ _ Hi). }
    rewrite root_emitted_call.
    apply (creation_cases
             [ {| RootCopy.Pos := RootCopy.fset l p;
                  RootCopy.Message :=
                    "unbuffered channel creation detected - consider specifying buffer size";
                  RootCopy.Severity := "INFO" |} ] fn args).
Qed.

Lemma make_chan_call_issue_witness :
  traversal [] Sample.scenarioA !! 14%nat =
    Some (Enter (Sample.above 1 [Sample.assign 201 (Sample.makeChan 207); Sample.send 301]
                 ++ [Sample.assign 201 (Sample.makeChan 207)])
                (Sample.makeChan 207)) ∧
  (∃ a',
    analyze Sample.fresh (Some Sample.scenarioA) = Some a' ∧
    issues a' =
      [] ++ report Sample.fileSet (take 14 (traversal [] Sample.scenarioA)) ++
      [ {| Pos := {| Filename := "a.go"; StartLine := 3; StartColumn := 7;
                     EndLine := 3; EndColumn := 21 |};
           Message := "unbuffered channel creation detected - consider specifying buffer size";
           Severity := "INFO" |} ] ++
      report Sample.fileSet (drop 15 (traversal [] Sample.scenarioA))) ∧
  (∃ l',
    RootCopy.analyze Sample.rootFresh Sample.scenarioA = Some l' ∧
    RootCopy.issues l' =
      [] ++ root_report Sample.fileSet (take 14 (traversal [] Sample.scenarioA)) ++
      [ {| RootCopy.Pos := token.mkPosition "a.go" 206 3 7;
           RootCopy.Message :=
             "unbuffered channel creation detected - consider specifying buffer size";
           RootCopy.Severity := "INFO" |} ] ++
      root_report Sample.fileSet (drop 15 (traversal [] Sample.scenarioA))).
Proof.
  split; [reflexivity|].
  destruct (make_chan_call_issue Sample.fresh Sample.rootFresh Sample.scenarioA 14
              (Sample.above 1 [Sample.assign 201 (Sample.makeChan 207); Sample.send 301]
               ++ [Sample.assign 201 (Sample.makeChan 207)])
              207 221 (ast.Ident 207 211 "make") [Sample.chanInt 212] eq_refl)
    as (_ & (a' & own & Hrun & Hiss & Hmake & _ & _)
          & (l' & rown & Hrrun & Hriss & Hrmake & _ & _)).
  split.
  - exists a'. split; [exact Hrun|].
    destruct (Hmake 207 211 212 220 (ast.Ident 217 220 "int") [] eq_refl eq_refl)
      as [Hone _].
    rewrite Hiss, (Hone eq_refl). reflexivity.
  - exists l'. split; [exact Hrrun|].
    destruct (Hrmake 207 211 212 220 (ast.Ident 217 220 "int") [] eq_refl eq_refl)
      as [Hone _].
    rewrite Hriss, (Hone eq_refl). reflexivity.
Defined.

(** ** The ancestor context *)

(** The recorded call at the entry of a node, the stack that its rule
    reads and the state the rule returns. *)
Lemma call_at_entry a file i anc n :
  traversal [] file !! i = Some (Enter anc n) →
  ∃ a' calls s s',
    analyze_traced a (Some file) = Some (a', calls) ∧
    analyze a (Some file) = Some a' ∧
    calls !! i = Some (s, Some n, s') ∧
    nodes (stack s) = Some <$> anc ∧
    dispatch (rule_input s n) n = Some s' ∧
    nodes (stack (rule_input s n)) = Some <$> (anc ++ [n]) ∧
    nodes (stack s') = Some <$> (anc ++ [n]).
Proof.
  intros Hi.
  destruct (analyze_traced_file a file) as (calls & Hrun & Ho).
  destruct (call_at_signal calls _ i _ Ho Hi) as (s & s' & Hc & Hb & Ha).
  simpl in Hc, Hb, Ha.
  exists (state_after a [] (traversal [] file)), calls, s, s'.
  split; [exact Hrun|]. split; [apply analyze_file|]. split; [exact Hc|].
  split; [exact Hb|].
  destruct (Inspect_traced_genuine visit file _ _ _ _ Hrun) as (new & Hnew & Hgen).
  simpl in Hnew. subst new.
  rewrite Forall_lookup in Hgen. destruct (Hgen i _ Hc) as (more & Hv).
  cbn [fst snd] in Hv. rewrite visit_rule_input in Hv.
  destruct (dispatch (rule_input s n) n) as [r|]; [|done].
  cbn in Hv. injection Hv as -> _.
  split; [reflexivity|]. split; [|exact Ha].
  unfold rule_input. simpl. by rewrite Hb, fmap_app.
Qed.




(** C6. The traversal keeps the ancestor context as a stack. It ends with
    the context empty, and the callback receives as many exits as entries.
    Each node that is entered is pushed; the signals that follow are those
    of its descendants, all below it, and then comes its own exit, which
    finds the node on top and pops exactly it. *)
Theorem stack_discipline (a : Analyzer) (file : ast.Node) :
  ∃ a' calls,
    analyze_traced a (Some file) = Some (a', calls) ∧
    analyze a (Some file) = Some a' ∧
    nodes (stack a') = [] ∧
    (λ c, c.1.2) <$> calls = argument <$> traversal [] file ∧
    entries ((λ c, c.1.2) <$> calls) = exits ((λ c, c.1.2) <$> calls) ∧
    ∀ i anc n,
      traversal [] file !! i = Some (Enter anc n) →
      let j := (i + length (traversal anc n) - 1)%nat in
      (i < j)%nat ∧
      traversal [] file !! j = Some (Leave anc n) ∧
      take (length (traversal anc n)) (drop i (traversal [] file)) = traversal anc n ∧
      Forall (λ sg, (anc ++ [n]) `prefix_of` ancestors sg)
        (ast.children n ≫= traversal (anc ++ [n])) ∧
      ∃ s s' u u',
        calls !! i = Some (s, Some n, s') ∧
        nodes (stack s) = Some <$> anc ∧
        nodes (stack s') = Some <$> (anc ++ [n]) ∧
        calls !! j = Some (u, None, u') ∧
        nodes (stack u) = Some <$> (anc ++ [n]) ∧
        nodes (stack u') = Some <$> anc.
Proof.
  destruct (analyze_traced_file a file) as (calls & Hrun & Ho).
  exists (state_after a [] (traversal [] file)), calls.
  split; [exact Hrun|]. split; [apply analyze_file|]. split; [reflexivity|].
  assert (Hargs : (λ c, c.1.2) <$> calls = argument <$> traversal [] file).
  { apply (f_equal (fmap (λ x : _ * option ast.Node * _, x.1.2))) in Ho.
    by rewrite <- !list_fmap_compose in Ho. }
  split; [exact Hargs|]. split; [rewrite Hargs; apply traversal_balanced|].
  intros i anc n Hi j.
  destruct (traversal_matching_leave _ _ _ _ _ Hi) as (Hblock & Hj).
  pose proof (traversal_length anc n) as Hlen.
  split; [unfold j; lia|]. split; [exact Hj|]. split; [exact Hblock|]. split.
  { rewrite Forall_lookup. intros k sg Hk.
    by apply (traversal_below_children n anc k). }
  destruct (call_at_signal calls _ i _ Ho Hi) as (s & s' & Hc & Hb & Ha).
  destruct (call_at_signal calls _ j _ Ho Hj) as (u & u' & Hc' & Hb' & Ha').
  by exists s, s', u, u'.
Qed.

Lemma stack_discipline_witness :
  ∃ a' calls u u',
    analyze_traced Sample.fresh (Some Sample.loneSend) = Some (a', calls) ∧
    nodes (stack a') = [] ∧
    exits ((λ c, c.1.2) <$> calls) = 3%nat ∧
    traversal [] Sample.loneSend !! 0%nat = Some (Enter [] Sample.loneSend) ∧
    traversal [] Sample.loneSend !! 5%nat = Some (Leave [] Sample.loneSend) ∧
    calls !! 5%nat = Some (u, None, u') ∧
    nodes (stack u) = [Some Sample.loneSend] ∧
    nodes (stack u') = [].
Proof.
  destruct (stack_discipline Sample.fresh Sample.loneSend)
    as (a' & calls & Hrun & _ & Hend & Hargs & Hbal & Hall).
  destruct (Hall 0%nat [] Sample.loneSend eq_refl)
    as (_ & Hj & _ & _ & s & s' & u & u' & _ & _ & _ & Hc & Hb & Ha).
  exists a', calls, u, u'.
  split; [exact Hrun|]. split; [exact Hend|]. split; [by rewrite Hargs|].
  split; [reflexivity|]. split; [exact Hj|]. split; [exact Hc|].
  split; [exact Hb|exact Ha].
Defined.

(** C7. With no tree, [analyze] returns at once: the callback is never
    called, so no rule is invoked, and the analyzer is unchanged, so no
    issue is reported; this is not a failure. *)
Theorem absent_tree_is_noop (a : Analyzer) :
  analyze a None = Some a ∧
  analyze_traced a None = Some (a, []) ∧
  produced a a = [].
Proof.
  split; [reflexivity|]. split; [reflexivity|].
  unfold produced. by rewrite drop_all.
Qed.

(** ** Runs of the analyzer *)

Lemma produced_app a a' new :
  issues a' = issues a ++ new → produced a a' = new.
Proof. intros H. unfold produced. by rewrite H, drop_app_length. Qed.

(** [analyze] on a file or on nothing: what it appends depends on the
    file and the file set only. *)
Lemma analyze_appends a file :
  ∃ a',
    analyze a file = Some a' ∧
    fset a' = fset a ∧
    issues a' = issues a ++ from_option (λ f, report (fset a) (traversal [] f)) [] file.
Proof.
  destruct file as [f|]; simpl.
  - eexists. split; [apply analyze_file|]. by split.
  - exists a. by rewrite app_nil_r.
Qed.

(** C8. A second run of the traversal on the same tree produces the
    issues of the first run, in the same order and equal in severity,
    message and position; so does a run from an empty collector. *)
Theorem rerun_same_issues (a : Analyzer) (file : option ast.Node) (st : parentStack) :
  ∃ a1 a2 a3,
    analyze a file = Some a1 ∧
    analyze a1 file = Some a2 ∧
    analyze {| issues := []; fset := fset a; stack := st |} file = Some a3 ∧
    produced a1 a2 = produced a a1 ∧
    issues a3 = produced a a1.
Proof.
  destruct (analyze_appends a file) as (a1 & H1 & F1 & I1).
  destruct (analyze_appends a1 file) as (a2 & H2 & F2 & I2).
  destruct (analyze_appends {| issues := []; fset := fset a; stack := st |} file)
    as (a3 & H3 & F3 & I3).
  exists a1, a2, a3. split; [exact H1|]. split; [exact H2|]. split; [exact H3|].
  rewrite (produced_app _ _ _ I1), (produced_app _ _ _ I2), F1, I3. by split.
Qed.

(** C9. [pop] on an empty stack changes nothing, and no sequence of
    pushes and pops, nor any sequence of callback arguments, makes [pop]
    or the callback panic, however many exit signals it holds. *)
Theorem pop_never_fails :
  pop {| nodes := [] |} = Some {| nodes := [] |} ∧
  (∀ p, ∃ p', pop p = Some p' ∧
              nodes p' = take (length (nodes p) - 1)%nat (nodes p)) ∧
  (∀ ops p, is_Some (apply_ops p ops)) ∧
  (∀ args a, is_Some (deliver a args)) ∧
  (∀ a k, nodes (stack a) = [] → deliver a (replicate k None) = Some a).
Proof.
  split; [reflexivity|]. split; [|split; [|split]].
  - intros p. eexists. split; [apply pop_total|reflexivity].
  - induction ops as [|op ops IH]; intros p; [by eexists|].
    simpl. destruct op as [n|]; simpl; [apply IH|].
    rewrite pop_total. simpl. apply IH.
  - induction args as [|n args IH]; intros a; [by eexists|].
    change (deliver a (n :: args)) with ('(a', _) ← visit a n; deliver a' args).
    destruct (visit_total a n) as (a' & ->). apply IH.
  - intros a k Hst. induction k as [|k IH]; [reflexivity|].
    change (deliver a (replicate (S k) None))
      with ('(a', _) ← visit a None; deliver a' (replicate k None)).
    by rewrite (visit_nil_empty a Hst).
Qed.

(** C10. Every issue the analyzer appends is a WARNING with the message
    of the send rule or an INFO with the message of the creation rule;
    among such issues the severity and the message determine each other. *)
Theorem issues_have_two_forms (a : Analyzer) (file : option ast.Node) :
  ∃ a',
    analyze a file = Some a' ∧
    issues a' = issues a ++ produced a a' ∧
    Forall two_forms (produced a a') ∧
    ∀ x y, two_forms x → two_forms y →
           (Severity x = Severity y ↔ Message x = Message y).
Proof.
  destruct (analyze_appends a file) as (a' & Hrun & _ & Hiss).
  exists a'. split; [exact Hrun|].
  rewrite (produced_app _ _ _ Hiss). split; [exact Hiss|]. split.
  - destruct file as [f|]; [|constructor]. simpl. apply report_two_forms.
  - intros x y [[Sx Mx]|[Sx Mx]] [[Sy My]|[Sy My]];
      rewrite Sx, Sy, Mx, My; split; intros H; first [reflexivity|discriminate H].
Qed.

(** ** Several files in one scan *)

Section FilesFacts.
Variable ParseFile : string → option ast.Node * option error.
Variable Stat : string → bool * option error.
Variable WalkCalls : string → list (string * bool * option error).

Lemma analyzeFile_parsed a path f :
  ParseFile path = (Some f, None) →
  analyzeFile ParseFile a path = Some (state_after a [] (traversal [] f), None).
Proof. intros H. unfold analyzeFile. rewrite H. by rewrite analyze_file. Qed.

(** A walk whose calls are all readable analyzes every file it scans with
    the one analyzer, each file's issues after those of the files before. *)
Lemma walkFiles_readable calls :
  Forall (readable ParseFile) calls →
  ∀ a, ∃ a',
    walkFiles ParseFile a calls = Some (a', None) ∧
    fset a' = fset a ∧
    issues a' =
      issues a ++ (scanned ParseFile calls ≫= λ f, report (fset a) (traversal [] f)).
Proof.
  induction 1 as [|[[path isDir] err] calls [Herr Hparse] _ IH]; intros a.
  { exists a. by rewrite app_nil_r. }
  simpl in Herr, Hparse. subst err. simpl.
  destruct (negb isDir && HasSuffix path ".go") eqn:Hgo.
  - destruct (Hparse eq_refl) as (f & Hf).
    rewrite (analyzeFile_parsed a path f Hf). simpl.
    destruct (IH (state_after a [] (traversal [] f))) as (a' & Hw & Hfs & Hiss).
    exists a'. split; [exact Hw|]. split; [exact Hfs|].
    rewrite Hiss, Hf. simpl. by rewrite <- app_assoc.
  - apply IH.
Qed.

(** C5, amended. At the start of the analysis of a file the stack is
    reset and the collector is not: the issues of the file are appended
    to those collected before. A scan of a directory therefore hands to
    reporting the issues of all the files it analyzed, in the order of the
    files. *)
Theorem scan_collects_every_file (fs : token.FileSet) (path : string) :
  Stat path = (true, None) →
  Forall (readable ParseFile) (WalkCalls path) →
  run ParseFile Stat WalkCalls fs path =
    Some (inl (scanned ParseFile (WalkCalls path) ≫= λ f, report fs (traversal [] f))) ∧
  ∀ (a : Analyzer) (file : ast.Node),
    ∃ a',
      analyze a (Some file) = Some a' ∧
      nodes (stack a') = [] ∧
      issues a' = issues a ++ report (fset a) (traversal [] file) ∧
      analyze (set_stack a {| nodes := [] |}) (Some file) = Some a'.
Proof.
  intros Hstat Hcalls. split.
  - unfold run, analyzePath. rewrite Hstat.
    destruct (walkFiles_readable _ Hcalls
                {| issues := []; fset := fs; stack := {| nodes := [] |} |})
      as (a' & -> & _ & Hiss).
    simpl. by rewrite Hiss.
  - intros a file. exists (state_after a [] (traversal [] file)).
    split; [apply analyze_file|]. split; [reflexivity|]. split; [reflexivity|].
    by rewrite analyze_file.
Qed.

End FilesFacts.

Lemma scan_collects_every_file_witness :
  Sample.Stat "dir" = (true, None) ∧
  scanned Sample.ParseFile (Sample.WalkCalls "dir") = [Sample.scenarioA; Sample.fileB] ∧
  run Sample.ParseFile Sample.Stat Sample.WalkCalls Sample.fileSet "dir" =
    Some (inl (scanned Sample.ParseFile (Sample.WalkCalls "dir") ≫=
               λ f, report Sample.fileSet (traversal [] f))).
Proof.
  split; [reflexivity|]. split; [reflexivity|].
  apply (scan_collects_every_file Sample.ParseFile Sample.Stat Sample.WalkCalls
           Sample.fileSet "dir"); [reflexivity|].
  repeat constructor; simpl; first [discriminate | intros _; by eexists].
Defined.

(** C5, as stated, fails. The collector is not reset when the analysis of
    a file starts: after scenario A (file [a.go]) and then the second file
    ([b.go]) it holds the two issues of [a.go] before the one of [b.go],
    which is not the collector of [b.go] alone; and this is the sequence
    that a scan of the directory hands to reporting. *)
Lemma collector_not_reset_between_files :
  ∃ a1 a2,
    analyze Sample.fresh (Some Sample.scenarioA) = Some a1 ∧
    analyze a1 (Some Sample.fileB) = Some a2 ∧
    (λ x, (Severity x, Filename (Pos x))) <$> issues a1 =
      [("INFO", "a.go"); ("WARNING", "a.go")] ∧
    (λ x, (Severity x, Filename (Pos x))) <$> issues a2 =
      [("INFO", "a.go"); ("WARNING", "a.go"); ("WARNING", "b.go")] ∧
    (λ x, (Severity x, Filename (Pos x))) <$>
      report Sample.fileSet (traversal [] Sample.fileB) = [("WARNING", "b.go")] ∧
    issues a2 ≠ report Sample.fileSet (traversal [] Sample.fileB) ∧
    run Sample.ParseFile Sample.Stat Sample.WalkCalls Sample.fileSet "dir" =
      Some (inl (issues a2)).
Proof.
  eexists _, _. split; [apply analyze_file|]. split; [apply analyze_file|].
  split; [reflexivity|]. split; [reflexivity|]. split; [reflexivity|].
  split; [|reflexivity].
  intros H. apply (f_equal length) in H. vm_compute in H. discriminate H.
Qed.

(** * Further properties *)

(** ** The stack as a stack *)

Lemma apply_ops_app p ops1 ops2 :
  apply_ops p (ops1 ++ ops2) = p' ← apply_ops p ops1; apply_ops p' ops2.
Proof.
  revert p. induction ops1 as [|op ops1 IH]; intros p; [reflexivity|].
  simpl. destruct (apply_op p op) as [p1|]; [apply IH|reflexivity].
Qed.

Lemma pop_push p n : pop (push p (Some n)) = Some p.
Proof. destruct p as [l]. apply pop_snoc. Qed.

(** X1. Last in, first out: after pushing any nodes and popping as many
    times, the stack is the one before. A push of nil is ignored, so a pop
    that follows it removes a node that was pushed earlier. *)
Theorem push_pop_lifo (p : parentStack) (ns : list ast.Node) :
  apply_ops p ((Push ∘ Some <$> ns) ++ replicate (length ns) Pop) = Some p ∧
  ∀ l x, apply_ops {| nodes := l ++ [x] |} [Push None; Pop] = Some {| nodes := l |}.
Proof.
  split.
  - revert p. induction ns as [|n ns IH]; intros p; [reflexivity|].
    change (length (n :: ns)) with (S (length ns)).
    rewrite replicate_S_end, fmap_cons, <- app_comm_cons, app_assoc.
    change (apply_ops p (((Push ∘ Some) n) :: (((Push ∘ Some) <$> ns)
              ++ replicate (length ns) Pop) ++ [Pop]))
      with (apply_ops (push p (Some n))
              ((((Push ∘ Some) <$> ns) ++ replicate (length ns) Pop) ++ [Pop])).
    rewrite apply_ops_app, IH. destruct p as [l]. simpl. by rewrite pop_snoc.
  - intros l x. simpl. by rewrite pop_snoc.
Qed.

(** X2. In the root file [push] stores whatever it is given, nil too, and
    a pop after a push gives back the stack, for every argument. *)
Theorem root_copy_pop_after_push (p : parentStack) (n : option ast.Node) :
  RootCopy.pop (RootCopy.push p n) = Some p ∧
  nodes (RootCopy.push p n) = nodes p ++ [n].
Proof.
  split; [|reflexivity]. destruct p as [l]. apply (pop_snoc l n).
Qed.

(** ** What one call of the callback does *)

Lemma dispatch_new a n :
  ∃ new,
    dispatch a n = Some {| issues := issues a ++ new; fset := fset a; stack := stack a |} ∧
    (length new ≤ 1)%nat ∧ Forall two_forms new.
Proof.
  assert (Hid : a = {| issues := issues a ++ []; fset := fset a; stack := stack a |})
    by (rewrite app_nil_r; by destruct a).
  assert (Hnone : ∃ new,
    Some a = Some {| issues := issues a ++ new; fset := fset a; stack := stack a |} ∧
    (length new ≤ 1)%nat ∧ Forall two_forms new).
  { exists []. split; [by rewrite <- Hid|]. split; [simpl; lia|constructor]. }
  destruct n as [| |p e fn args|p e c v| |]; try exact Hnone.
  - destruct fn as [q r nm| | | | |]; try exact Hnone.
    simpl. destruct (String.eqb nm "make"); simpl; [|exact Hnone].
    destruct args as [|arg0 rest]; [exact Hnone|]. simpl.
    destruct arg0; try exact Hnone.
    destruct (bool_decide _); [|exact Hnone].
    eexists. split; [reflexivity|]. split; [simpl; lia|].
    constructor; [right; by split|constructor].
  - simpl. unfold checkChannelSend. destruct (inSelect _); simpl; [exact Hnone|].
    eexists. split; [reflexivity|]. split; [simpl; lia|].
    constructor; [left; by split|constructor].
Qed.

(** X3. One call of the callback on a node, in any state: it pushes the
    node, appends at most one issue, of one of the two forms, and changes
    nothing else; the issues collected before stay as they are. *)
Theorem callback_appends_at_most_one (a : Analyzer) (node : ast.Node) :
  ∃ new,
    visit a (Some node) =
      Some ({| issues := issues a ++ new; fset := fset a;
               stack := {| nodes := nodes (stack a) ++ [Some node] |} |}, true) ∧
    (length new ≤ 1)%nat ∧
    Forall two_forms new.
Proof.
  rewrite visit_rule_input.
  destruct (dispatch_new (rule_input a node) node) as (new & -> & Hlen & Hforms).
  by exists new.
Qed.

(** X4. The creation rule does not read the stack: on the same call it
    decides the same in every context, inside a select as outside. *)
Theorem creation_rule_ignores_the_stack (a : Analyzer) (st : parentStack)
    (node : ast.Node) :
  checkChannelCreation (set_stack a st) node =
    (λ a', set_stack a' st) <$> checkChannelCreation a node ∧
  ∀ fs anc anc' p e fn args,
    emitted fs anc (ast.CallExpr p e fn args) = emitted fs anc' (ast.CallExpr p e fn args).
Proof.
  split.
  - destruct node as [| |p e fn args| | |]; try reflexivity.
    destruct fn as [q r nm| | | | |]; try reflexivity.
    simpl. destruct (String.eqb nm "make"); simpl; [|reflexivity].
    destruct args as [|arg0 rest]; [reflexivity|]. simpl.
    destruct arg0; try reflexivity.
    by destruct (bool_decide _).
  - intros. by rewrite !emitted_call.
Qed.

(** ** The order of the issues *)

Lemma report_bind {A} fs (g : A → list Signal) (l : list A) :
  report fs (l ≫= g) = l ≫= λ c, report fs (g c).
Proof.
  induction l as [|c l IH]; [reflexivity|].
  change ((c :: l) ≫= g) with (g c ++ (l ≫= g)).
  rewrite report_app, IH. reflexivity.
Qed.

Lemma report_traversal fs anc t :
  report fs (traversal anc t) =
    emitted fs anc t ++ (ast.children t ≫= λ c, report fs (traversal (anc ++ [t]) c)).
Proof.
  rewrite traversal_unfold, report_enter, report_app, report_leave, app_nil_r.
  by rewrite report_bind.
Qed.

(** A traversal around the signals of one of its nodes. *)
Lemma traversal_around file i anc n :
  traversal [] file !! i = Some (Enter anc n) →
  traversal [] file =
    take i (traversal [] file) ++ traversal anc n ++
    drop (i + length (traversal anc n)) (traversal [] file).
Proof.
  intros Hi. destruct (traversal_block _ _ _ _ _ Hi) as (post & Hpost).
  rewrite <- (take_drop i (traversal [] file)) at 1. f_equal.
  rewrite <- drop_drop, Hpost. by rewrite drop_app_length.
Qed.

Lemma subtree_block a file i anc n :
  traversal [] file !! i = Some (Enter anc n) →
  ∃ a',
    analyze a (Some file) = Some a' ∧
    issues a' =
      issues a ++ report (fset a) (take i (traversal [] file)) ++
      (emitted (fset a) anc n ++
       (ast.children n ≫= λ c, report (fset a) (traversal (anc ++ [n]) c))) ++
      report (fset a) (drop (i + length (traversal anc n)) (traversal [] file)).
Proof.
  intros Hi. eexists. split; [apply analyze_file|].
  unfold state_after. simpl. f_equal.
  rewrite (traversal_around file i anc n Hi) at 1.
  by rewrite !report_app, report_traversal.
Qed.

(** X5. The issues of a subtree are one block of the collector, after
    the issues of what the traversal visits before the subtree and before
    those of what it visits after; in the block the issue of the node
    itself comes first, then the blocks of its children from left to
    right. *)
Theorem subtree_issues_form_a_block (a : Analyzer) (file : ast.Node) (i : nat)
    (anc : list ast.Node) (n : ast.Node) :
  traversal [] file !! i = Some (Enter anc n) →
  ∃ a',
    analyze a (Some file) = Some a' ∧
    issues a' =
      issues a ++ report (fset a) (take i (traversal [] file)) ++
      (emitted (fset a) anc n ++
       (ast.children n ≫= λ c, report (fset a) (traversal (anc ++ [n]) c))) ++
      report (fset a) (drop (i + length (traversal anc n)) (traversal [] file)).
Proof.
  apply subtree_block.
Qed.

Lemma subtree_issues_form_a_block_witness :
  ∃ a' before after_,
    analyze Sample.fresh (Some Sample.scenarioA) = Some a' ∧
    issues a' =
      [] ++ before ++
      ([] ++ [creationInfo (Sample.fileSet 207) (Sample.fileSet 221)]) ++ after_ ∧
    Severity <$> after_ = ["WARNING"].
Proof.
  destruct (subtree_issues_form_a_block Sample.fresh Sample.scenarioA 11
              (Sample.above 1 [Sample.assign 201 (Sample.makeChan 207); Sample.send 301])
              (Sample.assign 201 (Sample.makeChan 207)) eq_refl)
    as (a' & Hrun & Hiss).
  exists a', [], (report Sample.fileSet (drop 23 (traversal [] Sample.scenarioA))).
  split; [exact Hrun|]. split; [exact Hiss|reflexivity].
Defined.

Lemma inSelect_app l1 l2 : inSelect (l1 ++ l2) = inSelect l1 || inSelect l2.
Proof.
  induction l1 as [|[n|] l1 IH]; [reflexivity| |exact IH].
  destruct n; simpl; first [exact IH|reflexivity].
Qed.

(** Below a select statement the rules emit creation issues only. *)
Lemma report_below_select fs t :
  ∀ anc, inSelect (Some <$> anc) = true →
    Forall (λ x, Severity x = "INFO" ∧
                 Message x = "unbuffered channel creation detected - consider specifying buffer size")
           (report fs (traversal anc t)).
Proof.
  induction t as [t IH] using Node_children_ind. intros anc Hsel.
  rewrite report_traversal. apply Forall_app. split.
  - destruct t as [| |p e fn args|p e c v| |];
      try (rewrite emitted_other by done; constructor).
    + assert (H : emitted fs anc (ast.CallExpr p e fn args) = [] ∨
                  emitted fs anc (ast.CallExpr p e fn args) =
                    [creationInfo (fs p) (fs e)]).
      { rewrite emitted_call.
        repeat (match goal with
                | |- context [match ?x with _ => _ end] => destruct x; auto
                end). }
      destruct H as [->| ->]; [constructor|]. constructor; [by split|constructor].
    + rewrite emitted_send, Hsel. constructor.
  - assert (Hsel' : inSelect (Some <$> anc ++ [t]) = true)
      by (by rewrite fmap_app, inSelect_app, Hsel).
    induction IH as [|c cs Hc _ IHcs]; [constructor|].
    change ((c :: cs) ≫= λ c0, report fs (traversal (anc ++ [t]) c0))
      with (report fs (traversal (anc ++ [t]) c) ++
            (cs ≫= λ c0, report fs (traversal (anc ++ [t]) c0))).
    apply Forall_app. split; [apply (Hc _ Hsel')|exact IHcs].
Qed.

(** X6. No send anywhere inside a select statement is reported: the block
    of issues of a select statement holds creation issues only, however the
    sends in it are nested. *)
Theorem no_warning_inside_select (a : Analyzer) (file : ast.Node) (i : nat)
    (anc : list ast.Node) (q r : token.Pos) (b : ast.Node) :
  traversal [] file !! i = Some (Enter anc (ast.SelectStmt q r b)) →
  ∃ a' inside,
    analyze a (Some file) = Some a' ∧
    issues a' =
      issues a ++ report (fset a) (take i (traversal [] file)) ++ inside ++
      report (fset a)
        (drop (i + length (traversal anc (ast.SelectStmt q r b))) (traversal [] file)) ∧
    inside = report (fset a) (traversal (anc ++ [ast.SelectStmt q r b]) b) ∧
    Forall (λ x, Severity x = "INFO" ∧
                 Message x = "unbuffered channel creation detected - consider specifying buffer size")
           inside.
Proof.
  intros Hi.
  destruct (subtree_block a file i anc _ Hi) as (a' & Hrun & Hiss).
  exists a', (report (fset a) (traversal (anc ++ [ast.SelectStmt q r b]) b)).
  split; [exact Hrun|]. split; [|split; [reflexivity|]].
  - rewrite Hiss. rewrite emitted_other by done. simpl. by rewrite app_nil_r.
  - apply report_below_select. rewrite fmap_app, inSelect_app. simpl.
    apply orb_true_r.
Qed.

Lemma no_warning_inside_select_witness :
  ∃ anc a' inside,
    traversal [] Sample.scenarioD !! 11%nat =
      Some (Enter anc (Sample.select 301 600 (ast.Other "ExprStmt" 316 320 [])
                         [Sample.block 401 450 [Sample.block 411 440 [Sample.send 421]]])) ∧
    analyze Sample.fresh (Some Sample.scenarioD) = Some a' ∧
    issues a' =
      [] ++ report Sample.fileSet (take 11 (traversal [] Sample.scenarioD)) ++ inside ++
      report Sample.fileSet (drop (11 + 20) (traversal [] Sample.scenarioD)) ∧
    inside = [].
Proof.
  eexists.
  destruct (no_warning_inside_select Sample.fresh Sample.scenarioD 11 _ 301 600 _ eq_refl)
    as (a' & inside & Hrun & Hiss & Hin & _).
  exists a', inside. split; [reflexivity|]. split; [exact Hrun|].
  split; [exact Hiss|]. rewrite Hin. reflexivity.
Defined.

(** ** Scans: which files are read, and what happens when one fails *)

Section ScanFacts.
Variable ParseFile : string → option ast.Node * option error.
Variable Stat : string → bool * option error.
Variable WalkCalls : string → list (string * bool * option error).

Lemma walkFiles_app a calls1 calls2 :
  walkFiles ParseFile a (calls1 ++ calls2) =
    '(a', r) ← walkFiles ParseFile a calls1;
    match r with
    | Some e => Some (a', Some e)
    | None => walkFiles ParseFile a' calls2
    end.
Proof.
  revert a. induction calls1 as [|[[path isDir] err] calls1 IH]; intros a; [reflexivity|].
  simpl. destruct err as [e|]; [reflexivity|].
  destruct (negb isDir && HasSuffix path ".go"); [|apply IH].
  destruct (analyzeFile ParseFile a path) as [[a1 [e|]]|]; simpl; [reflexivity|apply IH|reflexivity].
Qed.

(** [analyzeFile] answers in every case, and keeps what was collected. *)
Lemma analyzeFile_keeps a path :
  ∃ a' r,
    analyzeFile ParseFile a path = Some (a', r) ∧
    fset a' = fset a ∧ issues a `prefix_of` issues a'.
Proof.
  unfold analyzeFile. destruct (ParseFile path) as [file [e|]].
  { by exists a, (Some ("error parsing file: " +:+ e)). }
  destruct file as [f|]; [|by exists a, (Some "parsed file is nil")].
  rewrite analyze_file. simpl. eexists _, _. split; [reflexivity|].
  split; [reflexivity|]. simpl. by apply prefix_app_r.
Qed.

Lemma walkFiles_keeps calls :
  ∀ a, ∃ a' r,
    walkFiles ParseFile a calls = Some (a', r) ∧
    fset a' = fset a ∧ issues a `prefix_of` issues a'.
Proof.
  induction calls as [|[[path isDir] err] calls IH]; intros a.
  { by exists a, None. }
  simpl. destruct err as [e|]; [by exists a, (Some e)|].
  destruct (negb isDir && HasSuffix path ".go"); [|apply IH].
  destruct (analyzeFile_keeps a path) as (a1 & r & -> & Hf1 & Hp1). simpl.
  destruct r as [e|].
  - by eexists _, _.
  - destruct (IH a1) as (a2 & r2 & -> & Hf2 & Hp2).
    exists a2, r2. split; [reflexivity|]. split; [congruence|by etrans].
Qed.

(** X7. Whatever the file system and the parser answer, [analyzePath]
    does not panic and only adds to the collector: the issues collected
    before remain, in place, also when it returns an error. *)
Theorem analyzePath_keeps_collected (a : Analyzer) (path : string) :
  ∃ a' r,
    analyzePath ParseFile Stat WalkCalls a path = Some (a', r) ∧
    issues a `prefix_of` issues a'.
Proof.
  unfold analyzePath. destruct (Stat path) as [isDir [e|]].
  { by exists a, (Some ("error accessing path: " +:+ e)). }
  destruct isDir.
  - destruct (walkFiles_keeps (WalkCalls path) a) as (a' & r & Hw & _ & Hp).
    by exists a', r.
  - destruct (analyzeFile_keeps a path) as (a' & r & Hw & _ & Hp).
    by exists a', r.
Qed.

(** X8. A path that is a regular file is parsed and analyzed whatever
    its name is; the test for the suffix [.go] is made in directories
    only. *)
Theorem single_file_is_analyzed_whatever_its_name (fs : token.FileSet)
    (path : string) (f : ast.Node) :
  Stat path = (false, None) →
  ParseFile path = (Some f, None) →
  run ParseFile Stat WalkCalls fs path = Some (inl (report fs (traversal [] f))).
Proof.
  intros Hstat Hparse. unfold run, analyzePath. rewrite Hstat.
  by rewrite (analyzeFile_parsed ParseFile _ path f Hparse).
Qed.

(** The walk up to its first call that fails. *)
Lemma walkFiles_until a pre c post :
  Forall (readable ParseFile) pre →
  ∃ a',
    walkFiles ParseFile a (pre ++ c :: post) = walkFiles ParseFile a' (c :: post) ∧
    fset a' = fset a ∧
    issues a' =
      issues a ++ (scanned ParseFile pre ≫= λ f, report (fset a) (traversal [] f)).
Proof.
  intros Hpre.
  destruct (walkFiles_readable ParseFile pre Hpre a) as (a' & Hw & Hf & Hi).
  exists a'. rewrite walkFiles_app, Hw. by split.
Qed.



End ScanFacts.

(** X11. In a directory the parser is asked about regular files whose name
    ends in [.go] and about nothing else: two parsers that agree on these
    files give the same scan. *)
Theorem directory_scan_reads_go_files_only
    (ParseFile ParseFile' : string → option ast.Node * option error)
    (Stat : string → bool * option error)
    (WalkCalls : string → list (string * bool * option error))
    (fs : token.FileSet) (path : string) :
  Stat path = (true, None) →
  (∀ p, (p, false, None) ∈ WalkCalls path → HasSuffix p ".go" = true →
        ParseFile p = ParseFile' p) →
  run ParseFile Stat WalkCalls fs path = run ParseFile' Stat WalkCalls fs path.
Proof.
  intros Hstat Hagree. unfold run, analyzePath. rewrite Hstat.
  enough (H : ∀ calls a, (∀ p, (p, false, None) ∈ calls → HasSuffix p ".go" = true →
                               ParseFile p = ParseFile' p) →
              walkFiles ParseFile a calls = walkFiles ParseFile' a calls)
    by (by rewrite (H _ _ Hagree)).
  induction calls as [|[[p isDir] err] calls IH]; intros a Hag; [reflexivity|].
  assert (Hrest : ∀ p0, (p0, false, None) ∈ calls → HasSuffix p0 ".go" = true →
                        ParseFile p0 = ParseFile' p0)
    by (intros p0 Hin; apply Hag; by right).
  simpl. destruct err as [e|]; [reflexivity|].
  destruct isDir; simpl; [by apply IH|].
  destruct (HasSuffix p ".go") eqn:Hgo; [|by apply IH].
  unfold analyzeFile. rewrite <- (Hag p (list_elem_of_here _ _) Hgo).
  destruct (ParseFile p) as [file [e|]]; [reflexivity|].
  destruct file as [f|]; [|reflexivity].
  rewrite analyze_file. simpl. by apply IH.
Qed.

Lemma single_file_is_analyzed_whatever_its_name_witness :
  HasSuffix "dir/notes.txt" ".go" = false ∧
  run (λ _, (Some Sample.fileB, None)) Sample.Stat Sample.WalkCalls Sample.fileSet
      "dir/notes.txt" =
    Some (inl (report Sample.fileSet (traversal [] Sample.fileB))).
Proof.
  split; [reflexivity|].
  apply (single_file_is_analyzed_whatever_its_name
           (λ _, (Some Sample.fileB, None)) Sample.Stat Sample.WalkCalls
           Sample.fileSet "dir/notes.txt" Sample.fileB); reflexivity.
Defined.



Lemma directory_scan_reads_go_files_only_witness :
  Sample.ParseFile "dir/notes.txt" = (None, Some "no such file") ∧
  run Sample.ParseFile Sample.Stat Sample.WalkCalls Sample.fileSet "dir" =
  run (λ path, if String.eqb path "dir/notes.txt" then (Some Sample.fileB, None)
               else Sample.ParseFile path)
      Sample.Stat Sample.WalkCalls Sample.fileSet "dir".
Proof.
  split; [reflexivity|].
  apply (directory_scan_reads_go_files_only Sample.ParseFile
           (λ path, if String.eqb path "dir/notes.txt" then (Some Sample.fileB, None)
                    else Sample.ParseFile path)
           Sample.Stat Sample.WalkCalls Sample.fileSet "dir"); [reflexivity|].
  intros p Hin Hgo. unfold Sample.WalkCalls in Hin.
  rewrite !elem_of_cons, elem_of_nil in Hin.
  destruct Hin as [H|[H|[H|[H|[]]]]]; simplify_eq; first [reflexivity|discriminate Hgo].
Defined.

(** ** Printing *)

Lemma len_cons {A} (x : A) (l : list A) : len (x :: l) = len l + 1.
Proof. unfold len. simpl length. lia. Qed.

(** The loop of [printJSON] fills the slots one by one and stays in range. *)
Lemma fillIssues_fills issues :
  ∀ filled,
    fillIssues (len filled) issues (filled ++ replicate (length issues) zeroJSONIssue) =
      Some (filled ++ (toJSONIssue <$> issues)).
Proof.
  induction issues as [|x issues IH]; intros filled.
  { simpl. by rewrite !app_nil_r. }
  simpl. unfold assign.
  rewrite bool_decide_eq_true_2.
  2:{ unfold len. rewrite length_app. simpl. lia. }
  simpl. replace (Z.to_nat (len filled)) with (length filled + 0)%nat
    by (unfold len; lia).
  rewrite insert_app_r. simpl.
  specialize (IH (filled ++ [toJSONIssue x])).
  rewrite len_app_one, <- !app_assoc in IH. exact IH.
Qed.

Section PrintFacts.
Context {W : Type}.
Variable Write : W → string → W * option error.
Variable MarshalIndent : JSON.JSONOutput → string * option error.

Lemma printJSON_value issues w :
  printJSON Write MarshalIndent issues w =
    Some (match MarshalIndent {| JSON.Issues := toJSONIssue <$> issues;
                                 JSON.Total := len issues |} with
          | (_, Some e) => (w, Some ("error marshaling JSON: " +:+ e))
          | (jsonBytes, None) => Write w (jsonBytes +:+ newline)
          end).
Proof.
  unfold printJSON.
  change (fillIssues 0 issues (replicate (length issues) zeroJSONIssue))
    with (fillIssues (len (@nil JSON.JSONIssue)) issues
            ([] ++ replicate (length issues) zeroJSONIssue)).
  rewrite (fillIssues_fills issues []). simpl.
  by destruct (MarshalIndent _) as [bytes [e|]].
Qed.

Lemma printLines_writeAll issues w :
  printLines Write issues w = writeAll Write (issueLine <$> issues) w.
Proof.
  revert w. induction issues as [|x issues IH]; intros w; [reflexivity|].
  simpl. destruct (Write w (issueLine x)) as [w' [e|]]; [reflexivity|apply IH].
Qed.

Lemma printText_texts issues w :
  printText Write issues w = writeAll Write (textOutput issues) w.
Proof.
  unfold printText, textOutput. destruct issues as [|x issues].
  - simpl. by destruct (Write w _) as [w' [e|]].
  - rewrite bool_decide_eq_false_2
      by (rewrite len_cons; pose proof (len_nonneg issues); lia).
    cbn [writeAll].
    destruct (Write w _) as [w' [e|]]; [reflexivity|apply printLines_writeAll].
Qed.

(** X12. [printJSON] never indexes out of range, and the value it
    marshals has every issue, in the order of the collector and with its
    severity, message and position, and their number as the total. A
    marshalling error is returned wrapped, with nothing written; otherwise
    the bytes and a newline go out in one write. *)
Theorem printJSON_marshals_every_issue (issues : list Issue) (w : W) :
  printJSON Write MarshalIndent issues w =
    Some (match MarshalIndent {| JSON.Issues := toJSONIssue <$> issues;
                                 JSON.Total := len issues |} with
          | (_, Some e) => (w, Some ("error marshaling JSON: " +:+ e))
          | (jsonBytes, None) => Write w (jsonBytes +:+ newline)
          end) ∧
  len issues = len (toJSONIssue <$> issues).
Proof.
  split; [apply printJSON_value|]. unfold len. by rewrite length_fmap.
Qed.

(** X13. [printText] writes, each in one write and in this order, the
    line "No issues found!" for an empty collector, and otherwise a header
    with the number of issues followed by one line per issue in the order
    of the collector; it stops at the first write that fails and returns
    its error. *)
Theorem printText_writes_header_and_lines (issues : list Issue) (w : W) :
  printText Write issues w = writeAll Write (textOutput issues) w ∧
  length (textOutput issues) =
    (if decide (issues = []) then 1 else S (length issues))%nat ∧
  (textOutput issues = ["No issues found!" +:+ newline] ↔ issues = []).
Proof.
  split; [apply printText_texts|]. split.
  - destruct issues as [|x issues]; [reflexivity|].
    rewrite decide_False by done. simpl. by rewrite length_fmap.
  - destruct issues as [|x issues]; [done|].
    split; [|done]. simpl. intros H. discriminate H.
Qed.

Variable ParseFile : string → option ast.Node * option error.
Variable Stat : string → bool * option error.
Variable WalkCalls : string → list (string * bool * option error).

(** X14. The command is the scan followed by the printer of the format:
    when the scan succeeds with some issues, [-output=txt] writes the text
    of exactly these issues and [-output=json] marshals exactly these
    issues; an error of the printer comes back wrapped. *)
Theorem command_prints_what_the_scan_collected (fs : token.FileSet) (path : string)
    (issues : list Issue) (w : W) :
  run ParseFile Stat WalkCalls fs path = Some (inl issues) →
  runWith Write MarshalIndent ParseFile Stat WalkCalls fs path "txt" w =
    Some (let '(w', err) := writeAll Write (textOutput issues) w in
          (w', (λ e, "error printing output: " +:+ e) <$> err)) ∧
  runWith Write MarshalIndent ParseFile Stat WalkCalls fs path "json" w =
    Some (match MarshalIndent {| JSON.Issues := toJSONIssue <$> issues;
                                 JSON.Total := len issues |} with
          | (_, Some e) =>
              (w, Some ("error printing output: error marshaling JSON: " +:+ e))
          | (jsonBytes, None) =>
              let '(w', err) := Write w (jsonBytes +:+ newline) in
              (w', (λ e, "error printing output: " +:+ e) <$> err)
          end).
Proof.
  unfold run, runWith. intros Hrun.
  destruct (analyzePath ParseFile Stat WalkCalls _ path) as [[a [e|]]|];
    simpl in Hrun; try discriminate Hrun.
  injection Hrun as <-. cbn -[printJSON printText]. split.
  - rewrite printText_texts.
    by destruct (writeAll Write (textOutput _) w) as [w' [e|]].
  - rewrite printJSON_value. cbn.
    destruct (MarshalIndent _) as [bytes [e|]]; [reflexivity|].
    by destruct (Write w (bytes +:+ newline)) as [w' [e|]].
Qed.

End PrintFacts.

Lemma command_prints_what_the_scan_collected_witness :
  runWith (λ (w : list string) text, (w ++ [text], None)) (λ _, ("{}", None))
    Sample.ParseFile Sample.Stat Sample.WalkCalls Sample.fileSet "dir" "txt" [] =
    Some (["Found 3 potential issues:" +:+ newline +:+ newline;
           "[INFO] a.go:3:7-21: unbuffered channel creation detected - consider specifying buffer size"
             +:+ newline;
           "[WARNING] a.go:4:1-8: channel send without select statement may block indefinitely"
             +:+ newline;
           "[WARNING] b.go:4:2-9: channel send without select statement may block indefinitely"
             +:+ newline],
          None).
Proof.
  destruct (command_prints_what_the_scan_collected
              (λ (w : list string) text, (w ++ [text], None)) (λ _, ("{}", None))
              Sample.ParseFile Sample.Stat Sample.WalkCalls Sample.fileSet "dir"
              (report Sample.fileSet (traversal [] Sample.scenarioA) ++
               report Sample.fileSet (traversal [] Sample.fileB))
              [] eq_refl) as [Htxt _].
  rewrite Htxt. reflexivity.
Defined.

(** ** The root file and [main.go], on whole scans *)

Lemma root_copy_same_findings_witness :
  ∃ l' m',
    RootCopy.analyze
      {| RootCopy.issues := []; RootCopy.fset := Sample.fileSet;
         RootCopy.stack := {| nodes := [] |} |} Sample.scenarioA = Some l' ∧
    analyze Sample.fresh (Some Sample.scenarioA) = Some m' ∧
    Forall2 same_finding (RootCopy.issues l') (issues m').
Proof.
  apply (root_copy_same_findings
           {| RootCopy.issues := []; RootCopy.fset := Sample.fileSet;
              RootCopy.stack := {| nodes := [] |} |} Sample.fresh Sample.scenarioA).
  - reflexivity.
  - constructor.
Defined.

Lemma analyze_corresponds l m file :
  corresponds l m →
  ∃ l' m',
    RootCopy.analyze l file = Some l' ∧
    analyze m (Some file) = Some m' ∧
    corresponds l' m'.
Proof.
  intros (Hs & Hf & Hi).
  assert (H0 : corresponds (RootCopy.set_stack l {| nodes := [] |})
                           (set_stack m {| nodes := [] |})) by (by split).
  pose proof (Inspect_sim corresponds RootCopy.visit visit
                (λ s1 s2 n, visit_corresponds s1 s2 n) file _ _ H0) as Hsim.
  fold (RootCopy.analyze l file) in Hsim.
  change (ast.Inspect visit file (set_stack m {| nodes := [] |}))
    with (analyze m (Some file)) in Hsim.
  rewrite analyze_file in Hsim |- *.
  inversion Hsim as [l' m' Hrel Hl Hm|]; subst.
  by exists l', (state_after m [] (traversal [] file)).
Qed.

Section RootCopyScans.
Variable ParseFile : string → option ast.Node * option error.
Variable Stat : string → bool * option error.
Variable WalkCalls : string → list (string * bool * option error).

(** Over calls that are all readable the two walks run in step. *)
Lemma walks_correspond calls :
  Forall (readable ParseFile) calls →
  ∀ l m, corresponds l m →
    ∃ l' m',
      RootCopyFiles.walkFiles ParseFile l calls = Some (l', None) ∧
      walkFiles ParseFile m calls = Some (m', None) ∧
      corresponds l' m'.
Proof.
  induction 1 as [|[[path isDir] err] calls [Herr Hparse] _ IH]; intros l m Hc.
  { by exists l, m. }
  simpl in Herr, Hparse. subst err. simpl.
  destruct (negb isDir && HasSuffix path ".go") eqn:Hgo; [|by apply IH].
  destruct (Hparse eq_refl) as (f & Hf).
  unfold RootCopyFiles.analyzeFile, analyzeFile. rewrite Hf.
  destruct (analyze_corresponds l m f Hc) as (l1 & m1 & -> & -> & Hc1). simpl.
  by apply IH.
Qed.

Lemma root_walkFiles_app l calls1 calls2 :
  RootCopyFiles.walkFiles ParseFile l (calls1 ++ calls2) =
    '(l', r) ← RootCopyFiles.walkFiles ParseFile l calls1;
    match r with
    | Some e => Some (l', Some e)
    | None => RootCopyFiles.walkFiles ParseFile l' calls2
    end.
Proof.
  revert l. induction calls1 as [|[[path isDir] err] calls1 IH]; intros l; [reflexivity|].
  simpl. destruct err as [e|]; [reflexivity|].
  destruct (negb isDir && HasSuffix path ".go"); [|apply IH].
  destruct (RootCopyFiles.analyzeFile ParseFile l path) as [[l1 [e|]]|]; simpl;
    [reflexivity|apply IH|reflexivity].
Qed.

(** X16. On a directory whose files all parse, the program of the root
    file prints the findings that [main.go] collects: as many issues, in
    the same order, each with the same severity and message and at the
    start of the range that [main.go] reports, and it logs nothing. *)
Theorem root_copy_scan_same_findings (fs : token.FileSet) (path output : string) :
  output = "txt" ∨ output = "json" →
  Stat path = (true, None) →
  Forall (readable ParseFile) (WalkCalls path) →
  ∃ found collected,
    RootCopyFiles.main ParseFile Stat WalkCalls fs path output =
      Some (RootCopyFiles.Printed output found None) ∧
    run ParseFile Stat WalkCalls fs path = Some (inl collected) ∧
    Forall2 same_finding found collected.
Proof.
  intros Hfmt Hstat Hcalls.
  assert (H0 : corresponds
                 {| RootCopy.issues := []; RootCopy.fset := fs;
                    RootCopy.stack := {| nodes := [] |} |}
                 {| issues := []; fset := fs; stack := {| nodes := [] |} |})
    by (split; [reflexivity|]; split; [reflexivity|constructor]).
  destruct (walks_correspond _ Hcalls _ _ H0) as (l' & m' & Hl & Hm & _ & _ & Hiss).
  exists (RootCopy.issues l'), (issues m').
  unfold RootCopyFiles.main, RootCopyFiles.analyzePath, run, analyzePath.
  rewrite Hstat, Hl, Hm. split; [by destruct Hfmt as [-> | ->]|]. by split.
Qed.

(** X17. When a [.go] file of the directory fails to parse, the program
    of the root file still prints: it logs the error of that file and
    hands to its printer the findings of the files analyzed before it,
    where the command of [main.go] prints nothing. *)
Theorem root_copy_prints_despite_failure (fs : token.FileSet) (path output : string)
    (pre post : list (string * bool * option error)) (p : string)
    (partial : option ast.Node) (e : error) :
  output = "txt" ∨ output = "json" →
  Stat path = (true, None) →
  WalkCalls path = pre ++ (p, false, None) :: post →
  Forall (readable ParseFile) pre →
  HasSuffix p ".go" = true →
  ParseFile p = (partial, Some e) →
  ∃ found,
    RootCopyFiles.main ParseFile Stat WalkCalls fs path output =
      Some (RootCopyFiles.Printed output found
              (Some ("Error analyzing path: "
                     +:+ ("error parsing file " +:+ p +:+ ": " +:+ e) +:+ newline))) ∧
    Forall2 same_finding found
      (scanned ParseFile pre ≫= λ f, report fs (traversal [] f)) ∧
    ∃ message, run ParseFile Stat WalkCalls fs path = Some (inr message).
Proof.
  intros Hfmt Hstat Hcalls Hpre Hgo Hparse.
  assert (H0 : corresponds
                 {| RootCopy.issues := []; RootCopy.fset := fs;
                    RootCopy.stack := {| nodes := [] |} |}
                 {| issues := []; fset := fs; stack := {| nodes := [] |} |})
    by (split; [reflexivity|]; split; [reflexivity|constructor]).
  destruct (walks_correspond _ Hpre _ _ H0) as (l' & m' & Hl & Hm & _ & _ & Hiss).
  destruct (walkFiles_readable ParseFile pre Hpre
              {| issues := []; fset := fs; stack := {| nodes := [] |} |})
    as (m2 & Hm2 & _ & Hiss2).
  rewrite Hm in Hm2. injection Hm2 as <-. rewrite Hiss2 in Hiss.
  exists (RootCopy.issues l'). split; [|split].
  - unfold RootCopyFiles.main, RootCopyFiles.analyzePath.
    rewrite Hstat, Hcalls, root_walkFiles_app, Hl. simpl. rewrite Hgo.
    unfold RootCopyFiles.analyzeFile. rewrite Hparse.
    destruct Hfmt as [-> | ->]; reflexivity.
  - exact Hiss.
  - unfold run, analyzePath. rewrite Hstat, Hcalls, walkFiles_app, Hm. simpl.
    rewrite Hgo. unfold analyzeFile. rewrite Hparse. simpl. by eexists.
Qed.

End RootCopyScans.

Lemma root_copy_scan_same_findings_witness :
  ∃ found collected,
    RootCopyFiles.main Sample.ParseFile Sample.Stat Sample.WalkCalls Sample.fileSet
      "dir" "json" = Some (RootCopyFiles.Printed "json" found None) ∧
    run Sample.ParseFile Sample.Stat Sample.WalkCalls Sample.fileSet "dir" =
      Some (inl collected) ∧
    Forall2 same_finding found collected.
Proof.
  apply (root_copy_scan_same_findings Sample.ParseFile Sample.Stat Sample.WalkCalls
           Sample.fileSet "dir" "json").
  - by right.
  - reflexivity.
  - repeat constructor; simpl; first [discriminate | intros _; by eexists].
Defined.

Lemma root_copy_prints_despite_failure_witness :
  ∃ found,
    RootCopyFiles.main
      (λ path, if String.eqb path "dir/a.go" then (Some Sample.scenarioA, None)
               else (Some Sample.fileB, Some "syntax error"))
      Sample.Stat Sample.WalkCalls Sample.fileSet "dir" "txt" =
      Some (RootCopyFiles.Printed "txt" found
              (Some ("Error analyzing path: "
                     +:+ ("error parsing file " +:+ "dir/b.go" +:+ ": " +:+ "syntax error")
                     +:+ newline))) ∧
    Forall2 same_finding found
      (scanned (λ path, if String.eqb path "dir/a.go" then (Some Sample.scenarioA, None)
                        else (Some Sample.fileB, Some "syntax error"))
               [("dir", true, None); ("dir/a.go", false, None)]
       ≫= λ f, report Sample.fileSet (traversal [] f)) ∧
    ∃ message,
      run (λ path, if String.eqb path "dir/a.go" then (Some Sample.scenarioA, None)
                   else (Some Sample.fileB, Some "syntax error"))
          Sample.Stat Sample.WalkCalls Sample.fileSet "dir" = Some (inr message).
Proof.
  apply (root_copy_prints_despite_failure
           (λ path, if String.eqb path "dir/a.go" then (Some Sample.scenarioA, None)
                    else (Some Sample.fileB, Some "syntax error"))
           Sample.Stat Sample.WalkCalls Sample.fileSet "dir" "txt"
           [("dir", true, None); ("dir/a.go", false, None)]
           [("dir/notes.txt", false, None)] "dir/b.go" (Some Sample.fileB) "syntax error").
  - by left.
  - reflexivity.
  - reflexivity.
  - repeat constructor; simpl; first [discriminate | intros _; by eexists].
  - reflexivity.
  - reflexivity.
Defined.
